(** * a_sink_openai.chat: rate-limited concurrent dispatch of chat completions

    A shallow embedding of [src/a_sink_openai/chat.py].

    - Part I models the Python values the module manipulates (decoded JSON,
      dicts in insertion order, exceptions) and the pure helpers
      [_construct_messages] and [get_json_schema_from_pydantic].
    - Part II models the synchronous halves of [call_openai_chat]: building
      the request body and shaping the decoded response.
    - Part III models the coroutines: every [await] is a scheduling point of
      a small-step machine whose shared state is the semaphore counter
      [u.RATE_LIMITER_SEMAPHORE._value]; [asyncio.gather] runs one such task
      per input row under an arbitrary schedule.
    - Part IV restates the wording of the specification where a theorem
      compares the code with it; Parts V and VI prove the properties of
      the synchronous code and of the coroutines; Part VII runs the model
      on concrete batches. *)

Set Warnings "-register-all".
From Stdlib Require Import Floats Ascii.
From stdpp Require Import base list strings.

(* ================================================================== *)
(** * Part I. Python values *)
(* ================================================================== *)

(** What [json.loads] and [res.json()] can produce.  A dict keeps its
    insertion order; keys are looked up from the front. *)
Inductive json :=
| JNull
| JBool (b : bool)
| JInt (z : Z)
| JFloat (f : float)
| JStr (s : string)
| JList (l : list json)
| JDict (d : list (string * json)).

Abbreviation dict := (list (string * json)).

(** The exceptions that reach the caller of [call_openai_chat]. *)
Inductive exn :=
| BadResponseException (response : json)  (* message embeds repr(response) *)
| ClientResponseError (status : Z)        (* raise_for_status *)
| ClientConnectionError                   (* session.post itself failed *)
| ContentTypeError                        (* res.json() on a non-JSON body *)
| JSONDecodeError
| KeyError
| IndexError
| TypeError
| ValidationError.                        (* pydantic *)

Inductive result (A : Type) :=
| Return (a : A)
| Raise (e : exn).
Arguments Return {A} a.
Arguments Raise {A} e.

#[global] Instance result_ret : MRet result := fun A a => Return a.

#[global] Instance result_bind : MBind result := fun A B k r =>
  match r with
  | Return a => k a
  | Raise e => Raise e
  end.

Definition of_option {A} (o : option A) (e : exn) : result A :=
  match o with
  | Some a => Return a
  | None => Raise e
  end.

(** ** dict operations *)

(** [d.get(k)] *)
Fixpoint dict_get (k : string) (d : dict) : option json :=
  match d with
  | [] => None
  | (k', v) :: d' => if String.eqb k k' then Some v else dict_get k d'
  end.

(** [k in d] *)
Definition dict_mem (k : string) (d : dict) : bool :=
  match dict_get k d with
  | Some _ => true
  | None => false
  end.

(** [d[k] = v]: an existing key keeps its place, a new key goes last. *)
Fixpoint dict_set (k : string) (v : json) (d : dict) : dict :=
  match d with
  | [] => [(k, v)]
  | (k', v') :: d' =>
      if String.eqb k k' then (k, v) :: d' else (k', v') :: dict_set k v d'
  end.

(** ** Python operators on decoded JSON *)

(** [bool(v)], the test behind [not v] and [a or b]. *)
Definition truthy (v : json) : bool :=
  match v with
  | JNull => false
  | JBool b => b
  | JInt z => negb (z =? 0)%Z
  | JFloat f => negb (PrimFloat.eqb f 0%float)
  | JStr s => negb (String.eqb s "")
  | JList l => match l with [] => false | _ => true end
  | JDict d => match d with [] => false | _ => true end
  end.

(** [needle in hay] on two strings: substring search. *)
Fixpoint str_contains (needle hay : string) : bool :=
  String.prefix needle hay ||
  match hay with
  | EmptyString => false
  | String _ hay' => str_contains needle hay'
  end.

(** [k in v] for a string [k]: key membership on a dict, element
    membership on a list, substring on a string, TypeError otherwise. *)
Definition py_in (k : string) (v : json) : result bool :=
  match v with
  | JDict d => Return (dict_mem k d)
  | JList l =>
      Return (existsb (fun x => match x with
                                | JStr s => String.eqb s k
                                | _ => false
                                end) l)
  | JStr s => Return (str_contains k s)
  | _ => Raise TypeError
  end.

(** [v[k]] for a string [k]. *)
Definition getitem (v : json) (k : string) : result json :=
  match v with
  | JDict d => of_option (dict_get k d) KeyError
  | _ => Raise TypeError
  end.

(** [v[0]]. Keys of a decoded dict are strings, so [d[0]] is a KeyError. *)
Definition getitem0 (v : json) : result json :=
  match v with
  | JList l => of_option (head l) IndexError
  | JStr s =>
      match s with
      | EmptyString => Raise IndexError
      | String c _ => Return (JStr (String c EmptyString))
      end
  | JDict _ => Raise KeyError
  | _ => Raise TypeError
  end.

(** [text or prompt] with [text] possibly [None]. *)
Definition or_else (text : option string) (prompt : string) : string :=
  match text with
  | None => prompt
  | Some s => if String.eqb s "" then prompt else s
  end.

(* ================================================================== *)
(** * Part II. Messages, request body, response shaping *)
(* ================================================================== *)

Definition message (role content : string) : json :=
  JDict [("role", JStr role); ("content", JStr content)].

Definition _construct_messages (prompt : string) (text : option string)
  : list json :=
  let messages := [] in
  let messages :=
    match text with
    | Some _ => messages ++ [message "system" prompt]
    | None => messages
    end in
  messages ++ [message "user" (or_else text prompt)].

(** The caller's pydantic class, as far as this module reads it:
    [__name__], [Config.description], [model_json_schema()] and the
    validation of its own fields from keyword arguments.  A class without
    a [Config.description] is not a value of this type: line 56 raises
    AttributeError on it before any request is built. *)
Record pydantic_model := {
  pm_name : string;
  pm_description : string;
  model_json_schema : dict;
  pm_validate : dict -> option dict
}.

Definition get_json_schema_from_pydantic (m : pydantic_model) : json :=
  let schema := model_json_schema m in
  let schema := dict_set "additionalProperties" (JBool false) schema in
  let json_schema :=
    JDict [("name", JStr (pm_name m));
           ("description", JStr (pm_description m));
           ("schema", JDict schema);
           ("strict", JBool true)] in
  JDict [("type", JStr "json_schema"); ("json_schema", json_schema)].

Definition DEFAULT_MODEL : string := "gpt-4o-mini".
Definition MAX_REQUESTS_PER_MIN : Z := 10000%Z.
Definition MAX_TOKENS_PER_MIN : Z := 10000000%Z.

(** The arguments of one [call_openai_chat] invocation. *)
Record call_args := {
  arg_prompt : string;
  arg_text : option string;
  arg_pydantic_model : option pydantic_model;
  arg_gpt_model : string;
  arg_id : option string
}.

(** Lines 90 and 93-96: the JSON body handed to [session.post]. *)
Definition request_data (a : call_args) : dict :=
  let messages := _construct_messages (arg_prompt a) (arg_text a) in
  let data := [("model", JStr (arg_gpt_model a)); ("messages", JList messages)] in
  match arg_pydantic_model a with
  | Some m => dict_set "response_format" (get_json_schema_from_pydantic m) data
  | None => data
  end.

(** What this module imports and does not define: the token estimator
    [async_openai.tokens.count_tokens], the [GPTTokens] model, the standard
    [json.loads], and pydantic's validation of a [GPTTokens] and of a
    [datetime] field. *)
Class Collaborators := {
  datetime : Type;
  GPTTokens : Type;
  count_tokens : list json -> string -> Z;
  json_loads : string -> option json;
  validate_GPTTokens : json -> option GPTTokens;
  validate_datetime : json -> option datetime
}.

Section Shaping.
Context `{Collaborators}.

(** An instance of the class [ChatOutput] built at lines 111-121: the
    fields of the caller's model plus the five metadata attributes. *)
Record ChatOutput := {
  fields : dict;
  gpt_called_at : datetime;
  gpt_tokens_used : GPTTokens;
  gpt_raw_input : string;
  gpt_model : string;
  out_id : option string
}.

(** What [call_openai_chat] returns: the pair [(result, usage)] without a
    schema, a [ChatOutput] with one. *)
Inductive chat_result :=
| Plain (content usage : json)
| Envelope (o : ChatOutput).

(** The condition of line 100, with Python's left-to-right [or]. *)
Definition malformed (response : json) : result bool :=
  has_usage ← py_in "usage" response;
  if negb has_usage then Return true else
  has_choices ← py_in "choices" response;
  if negb has_choices then Return true else
  choices ← getitem response "choices";
  Return (negb (truthy choices)).

(** [json.loads(result)] *)
Definition loads (v : json) : result json :=
  match v with
  | JStr s => of_option (json_loads s) JSONDecodeError
  | _ => Raise TypeError
  end.

Definition metadata_names : list string :=
  ["gpt_called_at"; "gpt_tokens_used"; "gpt_raw_input"; "gpt_model"; "id"].

Definition is_metadata (k : string) : bool :=
  existsb (String.eqb k) metadata_names.

(** A [str] attribute with a class-level default: a keyword argument of
    that name replaces the default and must be a string. *)
Definition str_field (kw : dict) (name default : string) : option string :=
  match dict_get name kw with
  | None => Some default
  | Some (JStr s) => Some s
  | Some _ => None
  end.

Definition datetime_field (kw : dict) (name : string) (default : datetime)
  : option datetime :=
  match dict_get name kw with
  | None => Some default
  | Some v => validate_datetime v
  end.

(** [data["model"]], read back from the request body. *)
Definition data_model (data : dict) : string :=
  match dict_get "model" data with
  | Some (JStr s) => s
  | _ => ""
  end.

(** Lines 111-123: [ChatOutput(id=id, gpt_tokens_used=usage, **result_json)].
    [result_json] must be a mapping; a key of it that repeats an explicit
    keyword is a TypeError; every other key is a keyword argument, so the
    caller's fields are validated from it and a metadata attribute named
    in it takes that value instead of its default. *)
Definition new_ChatOutput (m : pydantic_model) (a : call_args) (now : datetime)
    (data : dict) (usage result_json : json) : result ChatOutput :=
  match result_json with
  | JDict kw =>
      if dict_mem "id" kw || dict_mem "gpt_tokens_used" kw then Raise TypeError
      else
        of_option
          (fs ← pm_validate m (List.filter (fun kv => negb (is_metadata kv.1)) kw);
           called_at ← datetime_field kw "gpt_called_at" now;
           tokens ← validate_GPTTokens usage;
           raw_input ← str_field kw "gpt_raw_input"
                         (or_else (arg_text a) (arg_prompt a));
           model ← str_field kw "gpt_model" (data_model data);
           Some {| fields := fs;
                   gpt_called_at := called_at;
                   gpt_tokens_used := tokens;
                   gpt_raw_input := raw_input;
                   gpt_model := model;
                   out_id := arg_id a |})
          ValidationError
  | _ => Raise TypeError
  end.

(** Lines 100-123: what [call_openai_chat] does with the decoded body that
    [_call_openai_chat] returned.  [now] is the reading of
    [datetime.now()] at line 117. *)
Definition call_openai_chat_finish (a : call_args) (now : datetime)
    (response : json) : result chat_result :=
  bad ← malformed response;
  if bad : bool then Raise (BadResponseException response) else
  usage ← getitem response "usage";
  choices ← getitem response "choices";
  choice ← getitem0 choices;
  msg ← getitem choice "message";
  content ← getitem msg "content";
  match arg_pydantic_model a with
  | None => Return (Plain content usage)
  | Some m =>
      result_json ← loads content;
      o ← new_ChatOutput m a now (request_data a) usage result_json;
      Return (Envelope o)
  end.

(** An exception out of [_call_openai_chat] passes through line 98. *)
Definition call_openai_chat_after (a : call_args) (now : datetime)
    (r : result json) : result chat_result :=
  response ← r;
  call_openai_chat_finish a now response.

End Shaping.

(* ================================================================== *)
(** * Part III. The coroutines *)
(* ================================================================== *)

(** asyncio runs the tasks of a batch on one thread and switches between
    them at an [await] only.  The model resumes one task at a time, from
    one [await] to the next, in any order: a schedule is a list of task
    indices.  It has more interleavings than asyncio, which runs through
    an [await] that is ready without switching; what holds under every
    schedule of the model holds under every run of the event loop.

    Three things are taken from outside.  The rate limiter: every
    [wait_for_availability] returns once its task is resumed (how long it
    withholds a task is the limiter's business), and the calls on it are
    recorded.  The transport: the reply to a request, status, headers and
    decoded body, is consumed in one resumption.  The semaphore: an
    [asyncio.Semaphore], whose [acquire] goes through when [_value] is
    positive and whose [__aexit__] gives the slot back and lets every
    exception through. *)

(** What [session.post] yields once awaited, as far as lines 68-84 read it. *)
Record response := {
  status : Z;
  headers : list (string * string);
  body : result json            (* the outcome of [await res.json()] *)
}.

Inductive reply :=
| Answered (res : response)
| Refused (e : exn).            (* [session.post] raised instead *)

(** Calls on the shared collaborators, tagged with the index of the task
    that makes them; [acquire] and [release] also name the activation of
    [_call_openai_chat] whose [async with] block is entered or left (0 for
    the outermost). *)
Inductive event :=
| set_rate_limiter (max_requests max_tokens : Z)
| wait_for_availability (i : nat) (units : option Z)
| acquire (i level : nat)
| post (i : nat) (data : dict)
| warning (i : nat)
| update_from_headers (i : nat) (h : list (string * string))
| release (i level : nat).

(** Where a running [_call_openai_chat] is suspended. *)
Inductive point :=
| AtWait        (* line 65: await wait_for_availability(required_tokens) *)
| AtGate        (* line 66: async with RATE_LIMITER_SEMAPHORE *)
| AtPost        (* lines 67-68: about to enter session.post *)
| InFlight      (* line 68: request sent, response awaited *)
| AtRetryWait.  (* line 75: await wait_for_availability() *)

(** One [call_openai_chat] task.  [attempt] counts the responses the task
    has consumed; [frames] counts the activations of [_call_openai_chat]
    that are inside their [async with RATE_LIMITER_SEMAPHORE] block: the
    innermost one is running (or has just finished with [r]), the others
    are suspended at line 76. *)
Inductive coroutine `{Collaborators} :=
| Run (p : point) (attempt frames : nat)
| Unwind (frames : nat) (r : result json)
| Done (o : result chat_result).

Record task `{Collaborators} := {
  args : call_args;
  co : coroutine
}.

(** The shared state: the semaphore's counter, the tasks in the order
    [asyncio.gather] received them, and the calls made so far. *)
Record state `{Collaborators} := {
  value : nat;
  tasks : list task;
  log : list event
}.

Section Machine.
Context `{Collaborators}.

(** [transport i n]: what the service answers to the [n]-th request of
    task [i] (counting from 0).  [clock i]: what [datetime.now()] reads when
    task [i] reaches line 117.  A task gets there once, so every sequence
    of readings of one run is some [clock]; the reading is taken when the
    task gets there, which the schedule decides, so nothing is assumed
    of [clock], and two runs whose tasks may get there at different
    times are compared under two clocks. *)
Variable transport : nat -> nat -> reply.
Variable clock : nat -> datetime.

Definition required_tokens (a : call_args) : Z :=
  count_tokens (_construct_messages (arg_prompt a) (arg_text a)) (arg_gpt_model a).

(** Lines 69-84 once the response headers are in. *)
Definition on_response (i : nat) (res : response) (attempt frames : nat)
  : coroutine * list event :=
  if (400 <=? status res)%Z then
    if (status res =? 429)%Z
    then (Run AtRetryWait (S attempt) frames, [warning i])
    else (Unwind frames (Raise (ClientResponseError (status res))), [])
  else (Unwind frames (body res), [update_from_headers i (headers res)]).

(** One resumption of task [i], which runs [call_openai_chat] and inside
    it [_call_openai_chat] (lines 64-84, then 100-123 once the outermost
    activation has returned), given the semaphore counter: the new
    coroutine state, the new counter and the calls made.  [None] when the
    task cannot be resumed: it is finished, or it waits on a semaphore
    whose counter is 0. *)
Definition resume (i : nat) (t : task) (v : nat)
  : option (coroutine * nat * list event) :=
  match co t with
  | Run AtWait n f =>
      Some (Run AtGate n f, v,
            [wait_for_availability i (Some (required_tokens (args t)))])
  | Run AtGate n f =>
      match v with
      | O => None
      | S v' => Some (Run AtPost n (S f), v', [acquire i f])
      end
  | Run AtPost n f =>
      Some (Run InFlight n f, v, [post i (request_data (args t))])
  | Run InFlight n f =>
      match transport i n with
      | Refused e => Some (Unwind f (Raise e), v, [])
      | Answered res =>
          let '(c, evs) := on_response i res n f in Some (c, v, evs)
      end
  | Run AtRetryWait n f =>
      Some (Run AtWait n f, v, [wait_for_availability i None])
  | Unwind (S f) r => Some (Unwind f r, S v, [release i f])
  | Unwind O r => Some (Done (call_openai_chat_after (args t) (clock i) r), v, [])
  | Done _ => None
  end.

(** The event loop resumes task [i]. *)
Definition step (i : nat) (s : state) : option state :=
  t ← tasks s !! i;
  '(c, v, evs) ← resume i t (value s);
  Some {| value := v;
          tasks := <[i := {| args := args t; co := c |}]> (tasks s);
          log := log s ++ evs |}.

(** A schedule names the task to resume at each turn; naming a task that
    cannot be resumed leaves the state as it is. *)
Definition turn (s : state) (i : nat) : state := default s (step i s).

Definition run (sched : list nat) (s : state) : state := foldl turn s sched.

Definition outcome (t : task) : option (result chat_result) :=
  match co t with
  | Done o => Some o
  | _ => None
  end.

(** [asyncio.gather] with [return_exceptions=True]: available once
    every task is finished; an exception is an entry like any other. *)
Definition gather (s : state) : option (list (result chat_result)) :=
  mapM outcome (tasks s).

(** ** The batch *)

(** A row of [input_data], spread into keyword arguments at line 137. *)
Record row := {
  row_text : option string;
  row_id : option string
}.

Definition call_of (prompt : string) (pydantic_model : option pydantic_model)
    (gpt_model : string) (r : row) : call_args :=
  {| arg_prompt := prompt;
     arg_text := row_text r;
     arg_pydantic_model := pydantic_model;
     arg_gpt_model := gpt_model;
     arg_id := row_id r |}.

(** [n_jobs] is [u.RATE_LIMITER_SEMAPHORE._value] when the batch starts. *)
Variable n_jobs : nat.

(** Lines 128-140: the state in which [gather] is entered. *)
Definition start (calls : list call_args) : state :=
  {| value := n_jobs;
     tasks := (fun a => {| args := a; co := Run AtWait 0 0 |}) <$> calls;
     log := [set_rate_limiter MAX_REQUESTS_PER_MIN MAX_TOKENS_PER_MIN] |}.

(** [u.split_valid_and_invalid_records], defined outside this module. *)
Variable Partition : Type.
Variable split_valid_and_invalid_records :
  list (result chat_result) -> pydantic_model -> Partition.

Inductive batch_result :=
| Outcomes (results : list (result chat_result))
| Partitioned (p : Partition).

(** [async_call_open_ai_chat] under schedule [sched]: [None] while some
    task is unfinished at the end of the schedule. *)
Definition async_call_open_ai_chat (sched : list nat) (prompt : string)
    (input_data : list row) (pydantic_model : option pydantic_model)
    (gpt_model : string) : option batch_result :=
  let calls := call_of prompt pydantic_model gpt_model <$> input_data in
  results ← gather (run sched (start calls));
  Some match pydantic_model with
       | None => Outcomes results
       | Some m => Partitioned (split_valid_and_invalid_records results m)
       end.

(** ** Observations on a state *)

(** Semaphore slots task [t] holds. *)
Definition held (t : task) : nat :=
  match co t with
  | Run _ _ f => f
  | Unwind f _ => f
  | Done _ => 0
  end.

Definition slots_held (s : state) : nat := sum_list (held <$> tasks s).

(** Network calls in flight: requests sent and not yet answered. *)
Definition in_flight (t : task) : nat :=
  match co t with
  | Run InFlight _ _ => 1
  | _ => 0
  end.

Definition calls_in_flight (s : state) : nat := sum_list (in_flight <$> tasks s).

(** [session.post] blocks entered and not yet left: the request in flight
    and, while a retry runs or the activations return, the answered
    requests whose block is still open. *)
Definition posts_open (t : task) : nat :=
  match co t with
  | Run AtPost _ f => pred f
  | Run _ _ f => f
  | Unwind f _ => f
  | Done _ => 0
  end.

Definition open_posts (s : state) : nat := sum_list (posts_open <$> tasks s).

(** The calls task [i] made, in order. *)
Definition by_task (i : nat) (e : event) : bool :=
  match e with
  | set_rate_limiter _ _ => false
  | wait_for_availability j _ | acquire j _ | post j _ | warning j
  | update_from_headers j _ | release j _ => Nat.eqb i j
  end.

Definition calls_of (i : nat) (s : state) : list event :=
  List.filter (by_task i) (log s).

(** ** What the transport decides for a task *)

(** The reply sends the task back to line 65 (HTTP 429). *)
Definition throttled (r : reply) : bool :=
  match r with
  | Answered res => (400 <=? status res)%Z && (status res =? 429)%Z
  | Refused _ => false
  end.

(** What [_call_openai_chat] returns or raises on a reply that is not a
    429. *)
Definition returned (r : reply) : result json :=
  match r with
  | Refused e => Raise e
  | Answered res =>
      if (400 <=? status res)%Z then Raise (ClientResponseError (status res))
      else body res
  end.

(** The [n]-th reply to task [i] is the first that is not a 429. *)
Definition settled (i n : nat) : Prop :=
  (∀ m, m < n → throttled (transport i m) = true)
  ∧ throttled (transport i n) = false.

(** The outcome of task [i] when its [n]-th reply settles it. *)
Definition outcome_at (i : nat) (a : call_args) (n : nat) : result chat_result :=
  call_openai_chat_after a (clock i) (returned (transport i n)).

(** ** The calls a task makes, attempt by attempt *)

(** Lines 65-68 of the activation at [level]. *)
Definition attempt_calls (i : nat) (a : call_args) (level : nat) : list event :=
  [wait_for_availability i (Some (required_tokens a));
   acquire i level;
   post i (request_data a)].

(** Lines 74-75. *)
Definition retry_calls (i : nat) : list event :=
  [warning i; wait_for_availability i None].

(** [n] attempts that each ended on a 429. *)
Definition throttled_calls (i : nat) (a : call_args) (n : nat) : list event :=
  flat_map (fun level => attempt_calls i a level ++ retry_calls i) (seq 0 n).

(** Line 81, reached on a reply below 400 only. *)
Definition closing_calls (i : nat) (r : reply) : list event :=
  match r with
  | Answered res =>
      if (400 <=? status res)%Z then [] else [update_from_headers i (headers res)]
  | Refused _ => []
  end.

(** The [async with] blocks of the activations [lo .. hi-1] are left,
    innermost first. *)
Definition release_calls (i lo hi : nat) : list event :=
  release i <$> reverse (seq lo (hi - lo)).

(** All the calls of a task that was settled by its [n]-th reply and has
    [f] blocks left to leave. *)
Definition settled_calls (i : nat) (a : call_args) (n f : nat) : list event :=
  throttled_calls i a n ++ attempt_calls i a n
    ++ closing_calls i (transport i n) ++ release_calls i f (S n).


(** ** Tasks that wait for a slot they cannot get *)

(** A task before its first resumption, and a task whose first request
    was answered 429 and whose retry waits at line 66. *)
Definition fresh (a : call_args) : task := {| args := a; co := Run AtWait 0 0 |}.
Definition parked (a : call_args) : task := {| args := a; co := Run AtGate 1 1 |}.

(** Each of the first [k] tasks in turn is resumed six times: up to the
    429, through line 75 and back to line 66. *)
Definition parking_schedule (k : nat) : list nat :=
  flat_map (replicate 6) (seq 0 k).

(** ** How far a task is from its end *)

(** The resumptions a task still needs when no further reply is a 429. *)
Definition remaining (t : task) : nat :=
  match co t with
  | Run AtRetryWait _ _ => 7
  | Run AtWait _ _ => 6
  | Run AtGate _ _ => 5
  | Run AtPost _ _ => 4
  | Run InFlight _ _ => 3
  | Unwind f _ => S f
  | Done _ => 0
  end.

Definition work (s : state) : nat := sum_list (remaining <$> tasks s).

(** ** The invariant of a task *)

(** Task [i] in state [t], having made the calls [l], is coherent with
    the transport: every reply it consumed before the current attempt was
    a 429, it holds one slot per activation that passed line 66, and [l]
    is exactly what lines 65-84 make it call. *)
Definition coherent (i : nat) (t : task) (l : list event) : Prop :=
  let a := args t in
  let wait := wait_for_availability i (Some (required_tokens a)) in
  match co t with
  | Run p n f =>
      (∀ m, m < n → throttled (transport i m) = true)
      ∧ match p with
        | AtWait => f = n ∧ l = throttled_calls i a n
        | AtGate => f = n ∧ l = throttled_calls i a n ++ [wait]
        | AtPost => f = S n ∧ l = throttled_calls i a n ++ [wait; acquire i n]
        | InFlight => f = S n ∧ l = throttled_calls i a n ++ attempt_calls i a n
        | AtRetryWait =>
            ∃ n', n = S n' ∧ f = n
                  ∧ l = throttled_calls i a n' ++ attempt_calls i a n' ++ [warning i]
        end
  | Unwind f r =>
      ∃ n, settled i n ∧ r = returned (transport i n) ∧ f ≤ S n
           ∧ l = settled_calls i a n f
  | Done o =>
      ∃ n, settled i n ∧ o = outcome_at i a n ∧ l = settled_calls i a n 0
  end.

(** The invariant of the batch started on [calls]: the semaphore counter
    and the slots held add up to [n_jobs], task [i] still carries the
    arguments of the [i]-th call, and every task is coherent. *)
Definition invariant (calls : list call_args) (s : state) : Prop :=
  value s + slots_held s = n_jobs
  ∧ args <$> tasks s = calls
  ∧ ∀ i t, tasks s !! i = Some t → coherent i t (calls_of i s).

End Machine.

(* ================================================================== *)
(** * A concrete set of collaborators *)
(* ================================================================== *)

(** Used to run the model on concrete inputs.  [loads] decodes the
    fragment of JSON without escapes, fractions or exponents and rejects
    everything else; a repeated key keeps its last value, as in Python. *)
Module Demo.

Definition quote : Ascii.ascii := Ascii.ascii_of_nat 34.

Definition is_space (c : Ascii.ascii) : bool :=
  let n := Ascii.nat_of_ascii c in
  Nat.eqb n 32 || Nat.eqb n 9 || Nat.eqb n 10 || Nat.eqb n 13.

Definition digit (c : Ascii.ascii) : option Z :=
  let n := Ascii.nat_of_ascii c in
  if Nat.leb 48 n && Nat.leb n 57 then Some (Z.of_nat (n - 48)) else None.

Fixpoint skip_spaces (s : string) : string :=
  match s with
  | String c s' => if is_space c then skip_spaces s' else s
  | EmptyString => s
  end.

(** The characters up to the closing quote, and what follows it. *)
Fixpoint chars (s : string) : option (string * string) :=
  match s with
  | EmptyString => None
  | String c s' =>
      if Ascii.eqb c quote then Some (EmptyString, s')
      else if Ascii.eqb c "\"%char || Nat.ltb (Ascii.nat_of_ascii c) 32 then None
      else '(str, rest) ← chars s'; Some (String c str, rest)
  end.

Fixpoint digits (acc : Z) (s : string) : Z * string :=
  match s with
  | String c s' =>
      match digit c with
      | Some d => digits (10 * acc + d)%Z s'
      | None => (acc, s)
      end
  | EmptyString => (acc, s)
  end.

(** A number: [-]? digit+, no leading zero before another digit. *)
Definition number (s : string) : option (json * string) :=
  let '(neg, s) :=
    match s with
    | String "-"%char s' => (true, s')
    | _ => (false, s)
    end in
  match s with
  | String c s' =>
      d ← digit c;
      match s' with
      | String c' _ =>
          if bool_decide (d = 0%Z) && bool_decide (is_Some (digit c')) then None
          else
            let '(n, rest) := digits 0 s in
            Some (JInt (if neg : bool then - n else n)%Z, rest)
      | EmptyString => Some (JInt (if neg : bool then - d else d)%Z, s')
      end
  | EmptyString => None
  end.

Definition keyword (word : string) (v : json) (s : string)
  : option (json * string) :=
  if String.prefix word s
  then Some (v, String.substring (String.length word)
                  (String.length s - String.length word) s)
  else None.

Fixpoint parse_value (fuel : nat) (s : string) : option (json * string) :=
  match fuel with
  | O => None
  | S fuel' =>
      match skip_spaces s with
      | String c rest =>
          if Ascii.eqb c quote then
            '(str, rest') ← chars rest; Some (JStr str, rest')
          else if Ascii.eqb c "["%char then
            match skip_spaces rest with
            | String "]"%char rest' => Some (JList [], rest')
            | _ => '(l, rest') ← elements fuel' rest; Some (JList l, rest')
            end
          else if Ascii.eqb c "{"%char then
            match skip_spaces rest with
            | String "}"%char rest' => Some (JDict [], rest')
            | _ => '(d, rest') ← members fuel' [] rest; Some (JDict d, rest')
            end
          else if Ascii.eqb c "n"%char then keyword "null" JNull (String c rest)
          else if Ascii.eqb c "t"%char then keyword "true" (JBool true) (String c rest)
          else if Ascii.eqb c "f"%char then keyword "false" (JBool false) (String c rest)
          else number (String c rest)
      | EmptyString => None
      end
  end
with elements (fuel : nat) (s : string) : option (list json * string) :=
  match fuel with
  | O => None
  | S fuel' =>
      '(v, rest) ← parse_value fuel' s;
      match skip_spaces rest with
      | String ","%char rest' =>
          '(l, rest'') ← elements fuel' rest'; Some (v :: l, rest'')
      | String "]"%char rest' => Some ([v], rest')
      | _ => None
      end
  end
with members (fuel : nat) (acc : dict) (s : string) : option (dict * string) :=
  match fuel with
  | O => None
  | S fuel' =>
      match skip_spaces s with
      | String c rest =>
          if Ascii.eqb c quote then
            '(k, rest) ← chars rest;
            match skip_spaces rest with
            | String ":"%char rest =>
                '(v, rest) ← parse_value fuel' rest;
                let acc := dict_set k v acc in
                match skip_spaces rest with
                | String ","%char rest' => members fuel' acc rest'
                | String "}"%char rest' => Some (acc, rest')
                | _ => None
                end
            | _ => None
            end
          else None
      | EmptyString => None
      end
  end.

Definition loads (s : string) : option json :=
  '(v, rest) ← parse_value (S (String.length s)) s;
  match skip_spaces rest with
  | EmptyString => Some v
  | _ => None
  end.

(** Modelled from the spec: the usage record
    [UsageInfo = { promptTokens, completionTokens, totalTokens }], which
    [async_openai.tokens.GPTTokens] holds; the keys are the ones of the
    chat-completion wire format. *)
Record Tokens := {
  prompt_tokens : Z;
  completion_tokens : Z;
  total_tokens : Z
}.

Definition int_field (k : string) (d : dict) : option Z :=
  match dict_get k d with
  | Some (JInt z) => Some z
  | _ => None
  end.

Definition validate_tokens (usage : json) : option Tokens :=
  match usage with
  | JDict d =>
      p ← int_field "prompt_tokens" d;
      c ← int_field "completion_tokens" d;
      t ← int_field "total_tokens" d;
      Some {| prompt_tokens := p; completion_tokens := c; total_tokens := t |}
  | _ => None
  end.

(** A timestamp is a number of seconds; an integer validates as one. *)
Definition validate_seconds (v : json) : option Z :=
  match v with
  | JInt z => Some z
  | _ => None
  end.

(** A stand-in estimator: four units per message plus the length of its
    content. *)
Definition estimate (messages : list json) (model : string) : Z :=
  foldr (fun m acc =>
           match m with
           | JDict d =>
               match dict_get "content" d with
               | Some (JStr s) => (4 + Z.of_nat (String.length s) + acc)%Z
               | _ => (4 + acc)%Z
               end
           | _ => acc
           end) 0%Z messages.

#[global] Instance collaborators : Collaborators := {|
  datetime := Z;
  GPTTokens := Tokens;
  count_tokens := estimate;
  json_loads := loads;
  validate_GPTTokens := validate_tokens;
  validate_datetime := validate_seconds
|}.

(** [class Answer(BaseModel): text: str], with a [Config.description]. *)
Definition Answer : pydantic_model := {|
  pm_name := "Answer";
  pm_description := "The answer to the question";
  model_json_schema :=
    [("properties",
      JDict [("text", JDict [("title", JStr "Text"); ("type", JStr "string")])]);
     ("required", JList [JStr "text"]);
     ("title", JStr "Answer");
     ("type", JStr "object")];
  pm_validate := fun kw =>
    match dict_get "text" kw with
    | Some (JStr s) => Some [("text", JStr s)]
    | _ => None
    end
|}.

(** The JSON text of an object whose only member, text, is the string
    Paris. *)
Definition paris : string :=
  "{" +:+ String quote "text" +:+ String quote ":"
      +:+ String quote "Paris" +:+ String quote "}".

Definition usage : json :=
  JDict [("prompt_tokens", JInt 12); ("completion_tokens", JInt 5);
         ("total_tokens", JInt 17)].

(** A well-formed completion whose first choice carries [content]. *)
Definition completion_members (content : json) : dict :=
  [("id", JStr "chatcmpl-1");
   ("choices",
    JList [JDict [("index", JInt 0);
                  ("message", JDict [("role", JStr "assistant");
                                     ("content", content)])]]);
   ("usage", usage)].

Definition completion (content : json) : json :=
  JDict (completion_members content).

Definition ok (b : json) : reply :=
  Answered {| status := 200; headers := [("x-ratelimit-remaining-requests", "9999")];
              body := Return b |}.

Definition http (code : Z) : reply :=
  Answered {| status := code; headers := []; body := Return JNull |}.

(** Calls with the prompt alone, with a text, and with an empty text. *)
Definition call (text : option string) (m : option pydantic_model) : call_args :=
  {| arg_prompt := "Capital of France?";
     arg_text := text;
     arg_pydantic_model := m;
     arg_gpt_model := DEFAULT_MODEL;
     arg_id := Some "row-1" |}.

(** A body whose [choices] is [null]. *)
Definition null_choices : dict := [("usage", usage); ("choices", JNull)].

(** The JSON text of an object with the members text and gpt_raw_input. *)
Definition paris_with_raw_input : string :=
  "{" +:+ String quote "text" +:+ String quote ":"
      +:+ String quote "Paris" +:+ String quote ","
      +:+ String quote "gpt_raw_input" +:+ String quote ":"
      +:+ String quote "none" +:+ String quote "}".

(** A batch of three rows without a schema: the first is answered at
    once, the second gets an HTTP 500, the third a 429 and then an
    answer. *)
Definition rows : list row :=
  [{| row_text := Some "France"; row_id := Some "a" |};
   {| row_text := Some "Spain"; row_id := Some "b" |};
   {| row_text := None; row_id := None |}].

Definition replies (i n : nat) : reply :=
  match i, n with
  | 0, _ => ok (completion (JStr "Paris"))
  | 1, _ => http 500
  | _, 0 => http 429
  | _, _ => ok (completion (JStr "Lisbon"))
  end.


Definition clock (i : nat) : Z := (1700000000 + Z.of_nat i)%Z.

(** The third task starts first and is throttled, the second runs to its
    error, the third retries and finishes, the first runs last. *)
Definition schedule : list nat :=
  [2; 2; 2; 2; 1; 1; 1; 1; 1; 1; 2; 2; 2; 2; 2; 2; 2; 2; 0; 0; 0; 0; 0; 0].

Definition batch : list call_args :=
  call_of "Capital of" None DEFAULT_MODEL <$> rows.

Definition results : list (result chat_result) :=
  Eval vm_compute in
    default [] (gather (run replies clock schedule (start 2 batch))).


(** A service that answers 429 to everything. *)
Definition always_throttled (i n : nat) : reply := http 429.

(** A lone call that is throttled once. *)
Definition throttled_once (i n : nat) : reply :=
  match n with
  | 0 => http 429
  | _ => ok (completion (JStr "Paris"))
  end.

Definition answered_at_once (i n : nat) : reply :=
  ok (completion (JStr "Paris")).

Definition lone : call_args := call None None.

(** The counter and the point of the lone call in every state it can be
    in when [n_jobs] is 1 and the first reply is a 429. *)
Definition lone_states : list (nat * coroutine) :=
  [(1, Run AtWait 0 0);
   (1, Run AtGate 0 0);
   (0, Run AtPost 0 1);
   (0, Run InFlight 0 1);
   (0, Run AtRetryWait 1 1);
   (0, Run AtWait 1 1);
   (0, Run AtGate 1 1)].

(** Two calls with a schema, both answered at once with the JSON text
    of an answer, run in the one order and in the other; in the second
    run the clock reads later for the task that finishes later. *)
Definition structured : list call_args :=
  [call (Some "France") (Some Answer); call (Some "France") (Some Answer)].

Definition answered_in_json (i n : nat) : reply := ok (completion (JStr paris)).

Definition first_then_second : list nat := replicate 6 0 ++ replicate 6 1.

Definition second_then_first : list nat := replicate 6 1 ++ replicate 6 0.

Definition clock_backwards (i : nat) : Z := (1700000001 - Z.of_nat i)%Z.

(** The record such a call returns when the clock reads [now]. *)
Definition answer_at (now : Z) : ChatOutput :=
  {| fields := [("text", JStr "Paris")];
     gpt_called_at := now;
     gpt_tokens_used :=
       {| prompt_tokens := 12; completion_tokens := 5; total_tokens := 17 |};
     gpt_raw_input := "France";
     gpt_model := DEFAULT_MODEL;
     out_id := Some "row-1" |}.

End Demo.

(* ================================================================== *)
(** * Part IV. The specification's wording *)
(* ================================================================== *)

(** The message rule as the data model words it: [text] absent, one user
    message with [prompt]; [text] present, a system message with [prompt]
    and a user message with [text]. *)
Definition messages_as_specified (prompt : string) (text : option string)
  : list json :=
  match text with
  | None => [message "user" prompt]
  | Some t => [message "system" prompt; message "user" t]
  end.

(** The raw input as the envelope is worded: the text, or the prompt when
    the text is absent. *)
Definition raw_input_as_specified (prompt : string) (text : option string)
  : string :=
  match text with
  | None => prompt
  | Some t => t
  end.

(** A malformed body as the error taxonomy words it: no usage, no choices
    key, or an empty list of choices. *)
Definition malformed_as_specified (d : dict) : bool :=
  match dict_get "usage" d, dict_get "choices" d with
  | None, _ => true
  | _, None => true
  | Some _, Some (JList []) => true
  | Some _, Some _ => false
  end.

(** The [response_format] of a schema-bound request as the wire payload
    is worded. *)
Definition response_format_as_specified (m : pydantic_model) : json :=
  JDict [("type", JStr "json_schema");
         ("json_schema",
          JDict [("name", JStr (pm_name m));
                 ("description", JStr (pm_description m));
                 ("schema",
                  JDict (dict_set "additionalProperties" (JBool false)
                           (model_json_schema m)));
                 ("strict", JBool true)])].

(** The activations whose [async with] block a list of calls enters, and
    the ones it leaves, in order. *)
Definition acquired (l : list event) : list nat :=
  flat_map (fun e => match e with acquire _ level => [level] | _ => [] end) l.

Definition released (l : list event) : list nat :=
  flat_map (fun e => match e with release _ level => [level] | _ => [] end) l.

(** The waits of line 75 among the calls [l]. *)
Definition waits_again (l : list event) : list event :=
  List.filter (fun e => match e with
                        | wait_for_availability _ None => true
                        | _ => false
                        end) l.

(** Every request body among the calls [l] is the one built from [a]. *)
Definition sends (a : call_args) (l : list event) : Prop :=
  Forall (fun e => match e with post _ data => data = request_data a | _ => True end) l.

(** The content of the first choice, as line 104 reads it. *)
Definition first_content (response : json) : result json :=
  choices ← getitem response "choices";
  choice ← getitem0 choices;
  msg ← getitem choice "message";
  getitem msg "content".

(* ================================================================== *)
(** * Part V. Properties of the synchronous code *)
(* ================================================================== *)

Lemma dict_get_set_eq k v d : dict_get k (dict_set k v d) = Some v.
Proof.
  induction d as [|[k' v'] d IH]; simpl.
  - by rewrite String.eqb_refl.
  - destruct (String.eqb k k') eqn:E; simpl.
    + by rewrite String.eqb_refl.
    + by rewrite E.
Qed.

Lemma dict_get_set_ne k k' v d :
  k ≠ k' → dict_get k' (dict_set k v d) = dict_get k' d.
Proof.
  intros Hne. induction d as [|[k0 v0] d IH]; simpl.
  - destruct (String.eqb k' k) eqn:E; [|done].
    apply String.eqb_eq in E. congruence.
  - destruct (String.eqb k k0) eqn:E; simpl.
    + apply String.eqb_eq in E. subst k0.
      destruct (String.eqb k' k) eqn:E'; [|done].
      apply String.eqb_eq in E'. congruence.
    + by rewrite IH.
Qed.

(** C5, as the code has it: without [text] the sequence is one user
    message with [prompt]; with [text] it is a system message with
    [prompt] followed by a user message whose content is [text], or
    [prompt] when [text] is the empty string. *)
Theorem C5_construct_messages (prompt : string) (text : option string) :
  _construct_messages prompt text =
    match text with
    | None => [message "user" prompt]
    | Some t =>
        [message "system" prompt;
         message "user" (if String.eqb t "" then prompt else t)]
    end.
Proof. by destruct text. Qed.

(** C5 fails as worded on an empty [text]: the user message carries the
    prompt, not the text. *)
Lemma C5_empty_text_counterexample :
  _construct_messages "Summarise." (Some "") =
    [message "system" "Summarise."; message "user" "Summarise."]
  ∧ messages_as_specified "Summarise." (Some "") =
    [message "system" "Summarise."; message "user" ""]
  ∧ _construct_messages "Summarise." (Some "")
    ≠ messages_as_specified "Summarise." (Some "").
Proof. by repeat split. Qed.

(** On a non-empty or absent [text] the code and the wording agree. *)
Lemma construct_messages_as_specified prompt text :
  text ≠ Some "" → _construct_messages prompt text = messages_as_specified prompt text.
Proof.
  destruct text as [t|]; [|done].
  intros Hne. unfold _construct_messages. simpl.
  destruct (String.eqb t "") eqn:E; [|done].
  apply String.eqb_eq in E. by subst.
Qed.

Section Shaping_properties.
Context `{Collaborators}.

Definition is_bad_response (e : exn) : bool :=
  match e with
  | BadResponseException _ => true
  | _ => false
  end.

Lemma getitem_raises v k e : getitem v k = Raise e → is_bad_response e = false.
Proof.
  destruct v; simpl; try (by intros [= <-]).
  destruct (dict_get k d); simpl; [done|by intros [= <-]].
Qed.

Lemma getitem0_raises v e : getitem0 v = Raise e → is_bad_response e = false.
Proof.
  destruct v as [| | | |s|l|d]; simpl; try (by intros [= <-]).
  - destruct s; simpl; [by intros [= <-]|done].
  - destruct l; simpl; [by intros [= <-]|done].
Qed.

Lemma py_in_raises k v e : py_in k v = Raise e → is_bad_response e = false.
Proof. destruct v; simpl; try done; by intros [= <-]. Qed.

Lemma loads_raises v e : loads v = Raise e → is_bad_response e = false.
Proof.
  destruct v; simpl; try (by intros [= <-]).
  destruct (json_loads s); simpl; [done|by intros [= <-]].
Qed.

Lemma new_ChatOutput_raises m a now data usage rj e :
  new_ChatOutput m a now data usage rj = Raise e → is_bad_response e = false.
Proof.
  unfold new_ChatOutput. destruct rj; try (by intros [= <-]).
  destruct (_ || _); [by intros [= <-]|].
  match goal with |- of_option ?o _ = _ → _ => destruct o end; simpl;
    [done|by intros [= <-]].
Qed.

Lemma malformed_raises response e :
  malformed response = Raise e → is_bad_response e = false.
Proof.
  unfold malformed.
  destruct (py_in "usage" response) as [[|]|e1] eqn:E1; simpl;
    [|done|intros [= <-]; eauto using py_in_raises].
  destruct (py_in "choices" response) as [[|]|e2] eqn:E2; simpl;
    [|done|intros [= <-]; eauto using py_in_raises].
  destruct (getitem response "choices") as [c|e3] eqn:E3; simpl;
    [done|intros [= <-]; eauto using getitem_raises].
Qed.

(** What line 100 tests on a JSON object: the two keys, then the truth
    value of [choices]. *)
Lemma malformed_dict d :
  malformed (JDict d) =
    Return match dict_get "usage" d, dict_get "choices" d with
           | None, _ => true
           | _, None => true
           | Some _, Some c => negb (truthy c)
           end.
Proof.
  unfold malformed, py_in, getitem, dict_mem. simpl.
  destruct (dict_get "usage" d); simpl; [|done].
  destruct (dict_get "choices" d); simpl; done.
Qed.

(** Everything after the test of line 100 raises something else. *)
Lemma finish_bad a now response r :
  call_openai_chat_finish a now response = Raise (BadResponseException r) →
  malformed response = Return true ∧ r = response.
Proof.
  unfold call_openai_chat_finish.
  destruct (malformed response) as [[|]|e] eqn:Em; simpl.
  - by intros [= <-].
  - intros Hr. exfalso.
    assert (∀ A (x : result A) e', x = Raise e' →
              e' = BadResponseException r → is_bad_response e' = false → False)
      as Hno by (intros ???? ->; done).
    repeat match type of Hr with
    | context [mbind _ ?x] =>
        let E := fresh "E" in destruct x eqn:E; simpl in Hr;
        [|injection Hr as ->;
          first [apply getitem_raises in E | apply getitem0_raises in E
                | apply loads_raises in E | apply new_ChatOutput_raises in E];
          done]
    | context [match ?x with Some _ => _ | None => _ end] =>
        destruct x; simpl in Hr
    end; done.
  - intros [= ->]. by apply malformed_raises in Em.
Qed.

(** C4, as the code has it: on a JSON object the call raises
    [BadResponseException] exactly when the key [usage] is missing, the key
    [choices] is missing, or the value of [choices] is false in Python's
    sense (an empty list, but also [null], [false], 0, an empty string or
    an empty object); the exception carries the body and nothing is
    returned; a body with a usage entry and a non-empty list of choices
    passes the test. *)
Theorem C4_malformed_response (a : call_args) (now : datetime) (d : dict) :
  (call_openai_chat_finish a now (JDict d) = Raise (BadResponseException (JDict d))
   ↔ dict_get "usage" d = None ∨ dict_get "choices" d = None
     ∨ ∃ c, dict_get "choices" d = Some c ∧ truthy c = false)
  ∧ (∀ r, call_openai_chat_finish a now (JDict d) = Raise (BadResponseException r)
          → r = JDict d)
  ∧ (∀ u c cs, dict_get "usage" d = Some u →
               dict_get "choices" d = Some (JList (c :: cs)) →
               malformed (JDict d) = Return false).
Proof.
  split; [split|split].
  - intros Hr. apply finish_bad in Hr as [Hm _].
    rewrite malformed_dict in Hm.
    destruct (dict_get "usage" d); [|by left].
    destruct (dict_get "choices" d) as [c|]; [|by right; left].
    right; right. exists c. split; [done|].
    injection Hm as Hm. by destruct (truthy c).
  - intros Hd. unfold call_openai_chat_finish. rewrite malformed_dict.
    destruct Hd as [->|[->|(c & -> & Hc)]]; simpl.
    + done.
    + by destruct (dict_get "usage" d).
    + rewrite Hc. by destruct (dict_get "usage" d).
  - intros r Hr. by apply finish_bad in Hr as [_ ->].
  - intros u c cs Hu Hc. by rewrite malformed_dict, Hu, Hc.
Qed.

Lemma request_data_model a : data_model (request_data a) = arg_gpt_model a.
Proof. unfold data_model, request_data. by destruct (arg_pydantic_model a). Qed.

Lemma first_content_dict d content :
  first_content (JDict d) = Return content →
  ∃ choice rest msg,
    dict_get "choices" d = Some (JList (choice :: rest))
    ∧ getitem choice "message" = Return msg
    ∧ getitem msg "content" = Return content.
Proof.
  unfold first_content. simpl.
  destruct (dict_get "choices" d) as [c|]; simpl; [|done].
  destruct c as [| | | |s|l|d']; simpl; try done.
  - destruct s; simpl; done.
  - destruct l as [|choice rest]; simpl; [done|].
    destruct (getitem choice "message") as [msg|] eqn:Em; simpl; [|done].
    intros Hc. by exists choice, rest, msg.
Qed.

(** A schema-bound call on a well-formed body reduces to the construction
    of the [ChatOutput]. *)
Lemma finish_with_schema a now m d usage content :
  arg_pydantic_model a = Some m →
  dict_get "usage" d = Some usage →
  first_content (JDict d) = Return content →
  call_openai_chat_finish a now (JDict d) =
    (result_json ← loads content;
     o ← new_ChatOutput m a now (request_data a) usage result_json;
     Return (Envelope o)).
Proof.
  intros Hm Hu (choice & rest & msg & Hc & Hmsg & Hcontent)%first_content_dict.
  unfold call_openai_chat_finish. rewrite malformed_dict, Hu, Hc. simpl.
  rewrite Hu, Hc. simpl. rewrite Hmsg. simpl. rewrite Hcontent. simpl.
  by rewrite Hm.
Qed.

(** C7, as the code has it: with a schema that has a field [text : str],
    a body whose first choice carries the JSON text of [{text: Paris}]
    yields a [ChatOutput] whose [text] is [Paris], whose [gpt_model] is
    the requested model, whose [gpt_tokens_used] is the validated
    [usage] of the body, whose [id] is the call's id and whose
    [gpt_raw_input] is the text when it is present and non-empty and the
    prompt otherwise. *)
Theorem C7_schema_round_trip (a : call_args) (now : datetime)
    (m : pydantic_model) (d : dict) (usage : json) (content : string)
    (tokens : GPTTokens) :
  arg_pydantic_model a = Some m →
  pm_validate m [("text", JStr "Paris")] = Some [("text", JStr "Paris")] →
  dict_get "usage" d = Some usage →
  first_content (JDict d) = Return (JStr content) →
  json_loads content = Some (JDict [("text", JStr "Paris")]) →
  validate_GPTTokens usage = Some tokens →
  call_openai_chat_finish a now (JDict d) =
    Return (Envelope {| fields := [("text", JStr "Paris")];
                        gpt_called_at := now;
                        gpt_tokens_used := tokens;
                        gpt_raw_input :=
                          match arg_text a with
                          | Some t => if String.eqb t "" then arg_prompt a else t
                          | None => arg_prompt a
                          end;
                        gpt_model := arg_gpt_model a;
                        out_id := arg_id a |}).
Proof.
  intros Hm Hv Hu Hc Hl Ht.
  rewrite (finish_with_schema a now m d usage (JStr content)) by done.
  simpl. rewrite Hl. simpl. unfold new_ChatOutput. simpl.
  rewrite Hv. simpl. unfold datetime_field, str_field. simpl.
  rewrite Ht. simpl. by rewrite request_data_model.
Qed.

(** C10, as the code has it: for every call whose [text] is the empty
    string, with a schema or without, whatever the service answers, the
    messages are a system message and a user message that both carry the
    prompt, and they are the messages of the request body; and whenever
    such a call returns a [ChatOutput], its [gpt_raw_input] is the
    prompt, unless the decoded content has a member [gpt_raw_input] of
    its own, which is passed to [ChatOutput] as a keyword argument and
    replaces the default. *)
Theorem C10_empty_text (a : call_args) :
  arg_text a = Some "" →
  _construct_messages (arg_prompt a) (arg_text a) =
    [message "system" (arg_prompt a); message "user" (arg_prompt a)]
  ∧ dict_get "messages" (request_data a)
    = Some (JList [message "system" (arg_prompt a);
                   message "user" (arg_prompt a)])
  ∧ ∀ (now : datetime) (response : json) (o : ChatOutput),
      call_openai_chat_finish a now response = Return (Envelope o) →
      ∃ content kw,
        first_content response = Return content
        ∧ loads content = Return (JDict kw)
        ∧ gpt_raw_input o =
            match dict_get "gpt_raw_input" kw with
            | Some (JStr s) => s
            | _ => arg_prompt a
            end.
Proof.
  intros Ht. split; [by rewrite Ht|]. split.
  { unfold request_data. rewrite Ht.
    by destruct (arg_pydantic_model a). }
  intros now response o Hr.
  unfold call_openai_chat_finish, first_content in *.
  destruct (malformed response) as [[|]|]; simpl in Hr; try done.
  destruct (getitem response "usage") as [usage|]; simpl in Hr; [|done].
  destruct (getitem response "choices") as [choices|]; simpl in *; [|done].
  destruct (getitem0 choices) as [choice|]; simpl in *; [|done].
  destruct (getitem choice "message") as [msg|]; simpl in *; [|done].
  destruct (getitem msg "content") as [content|]; simpl in *; [|done].
  destruct (arg_pydantic_model a) as [m|]; [|done].
  destruct (loads content) as [rj|] eqn:El; simpl in Hr; [|done].
  exists content. unfold new_ChatOutput in Hr.
  destruct rj as [| | | | | |kw]; try done. exists kw.
  split; [done|split; [done|]].
  destruct (_ || _); [done|].
  destruct (pm_validate m _); simpl in Hr; [|done].
  destruct (datetime_field kw _ now); simpl in Hr; [|done].
  destruct (validate_GPTTokens usage); simpl in Hr; [|done].
  rewrite Ht in Hr. unfold str_field in Hr. simpl in Hr.
  destruct (dict_get "gpt_raw_input" kw) as [[]|]; simpl in Hr; try done;
    destruct (dict_get "gpt_model" kw) as [[]|]; simpl in Hr; try done;
    by injection Hr as <-.
Qed.

End Shaping_properties.

(** C4 fails as worded on a body whose [choices] is [null]: the key is
    there and the value is not an empty list, yet the call raises. *)
Lemma C4_null_choices_counterexample :
  @call_openai_chat_finish Demo.collaborators (Demo.call None None) 0%Z
      (JDict Demo.null_choices)
    = Raise (BadResponseException (JDict Demo.null_choices))
  ∧ malformed_as_specified Demo.null_choices = false.
Proof. by split. Qed.

(** C7 fails as worded on an empty [text]: the text is present, yet
    [gpt_raw_input] is the prompt. *)
Lemma C7_empty_text_counterexample :
  (o ← @call_openai_chat_finish Demo.collaborators
         (Demo.call (Some "") (Some Demo.Answer)) 0%Z
         (Demo.completion (JStr Demo.paris));
   match o with
   | Envelope o => Return (gpt_raw_input o)
   | Plain _ _ => Raise TypeError
   end) = Return "Capital of France?"
  ∧ raw_input_as_specified "Capital of France?" (Some "") = "".
Proof. by split. Qed.

Lemma C7_schema_round_trip_witness :
  @call_openai_chat_finish Demo.collaborators
    (Demo.call (Some "Answer in one word.") (Some Demo.Answer)) 1700000000%Z
    (Demo.completion (JStr Demo.paris)) =
  Return (Envelope {| fields := [("text", JStr "Paris")];
                      gpt_called_at := 1700000000%Z : @datetime Demo.collaborators;
                      gpt_tokens_used :=
                        {| Demo.prompt_tokens := 12; Demo.completion_tokens := 5;
                           Demo.total_tokens := 17 |};
                      gpt_raw_input := "Answer in one word.";
                      gpt_model := "gpt-4o-mini";
                      out_id := Some "row-1" |}).
Proof.
  exact (@C7_schema_round_trip Demo.collaborators
           (Demo.call (Some "Answer in one word.") (Some Demo.Answer))
           1700000000%Z Demo.Answer (Demo.completion_members (JStr Demo.paris))
           Demo.usage Demo.paris _
           eq_refl eq_refl eq_refl eq_refl eq_refl eq_refl).
Defined.

(** C10 fails as worded when the content names [gpt_raw_input] itself:
    the text is empty, the call succeeds, and [gpt_raw_input] is neither
    the text nor the prompt. *)
Lemma C10_content_counterexample :
  (o ← @call_openai_chat_finish Demo.collaborators
         (Demo.call (Some "") (Some Demo.Answer)) 0%Z
         (Demo.completion (JStr Demo.paris_with_raw_input));
   match o with
   | Envelope o => Return (gpt_raw_input o)
   | Plain _ _ => Raise TypeError
   end) = Return "none"
  ∧ arg_prompt (Demo.call (Some "") (Some Demo.Answer)) = "Capital of France?".
Proof. by split. Qed.

Lemma C10_empty_text_witness :
  _construct_messages "Capital of France?" (Some "") =
    [message "system" "Capital of France?"; message "user" "Capital of France?"]
  ∧ dict_get "messages" (request_data (Demo.call (Some "") (Some Demo.Answer)))
    = Some (JList [message "system" "Capital of France?";
                   message "user" "Capital of France?"])
  ∧ ∃ content kw,
      first_content (Demo.completion (JStr Demo.paris)) = Return content
      ∧ @loads Demo.collaborators content = Return (JDict kw)
      ∧ "Capital of France?" =
          match dict_get "gpt_raw_input" kw with
          | Some (JStr s) => s
          | _ => "Capital of France?"
          end.
Proof.
  exact (match @C10_empty_text Demo.collaborators
                 (Demo.call (Some "") (Some Demo.Answer)) eq_refl with
         | conj messages (conj body raw_input) =>
             conj messages
               (conj body
                  (raw_input 0%Z (Demo.completion (JStr Demo.paris)) _ eq_refl))
         end).
Defined.

(* ================================================================== *)
(** * Part VI. Properties of the coroutines *)
(* ================================================================== *)

Lemma sum_list_insert {A} (f : A → nat) (l : list A) i x y :
  l !! i = Some x →
  sum_list (f <$> <[i:=y]> l) + f x = sum_list (f <$> l) + f y.
Proof.
  revert i. induction l as [|z l IH]; intros [|i]; simpl; try done.
  - intros [= ->]. lia.
  - intros Hi. specialize (IH i Hi). unfold fmap in IH. lia.
Qed.

Lemma sum_list_le {A} (f g : A → nat) (l : list A) :
  (∀ i x, l !! i = Some x → f x ≤ g x) →
  sum_list (f <$> l) ≤ sum_list (g <$> l).
Proof.
  induction l as [|z l IH]; intros Hle; simpl; [done|].
  specialize (Hle 0 z eq_refl) as Hz.
  assert (sum_list (f <$> l) ≤ sum_list (g <$> l)); [|unfold fmap in *; lia].
  apply IH. intros i x Hi. by apply (Hle (S i)).
Qed.

Section Machine_properties.
Context `{Collaborators}.
Variable transport : nat → nat → reply.
Variable clock : nat → datetime.

Lemma run_cons i sched s :
  run transport clock (i :: sched) s
  = run transport clock sched (turn transport clock s i).
Proof. done. Qed.

Lemma run_app sched1 sched2 s :
  run transport clock (sched1 ++ sched2) s
  = run transport clock sched2 (run transport clock sched1 s).
Proof. apply foldl_app. Qed.

(** A property that every resumption preserves holds along every
    schedule. *)
Lemma run_invariant (P : state → Prop) :
  (∀ s i s', P s → step transport clock i s = Some s' → P s') →
  ∀ sched s, P s → P (run transport clock sched s).
Proof.
  intros Hstep sched. induction sched as [|i sched IH]; intros s Hs; [done|].
  rewrite run_cons. apply IH. unfold turn.
  destruct (step transport clock i s) eqn:E; simpl; eauto.
Qed.

Lemma step_inv i s s' :
  step transport clock i s = Some s' →
  ∃ t c v evs,
    tasks s !! i = Some t
    ∧ resume transport clock i t (value s) = Some (c, v, evs)
    ∧ s' = {| value := v;
              tasks := <[i := {| args := args t; co := c |}]> (tasks s);
              log := log s ++ evs |}.
Proof.
  unfold step. destruct (tasks s !! i) as [t|]; simpl; [|done].
  destruct (resume transport clock i t (value s)) as [[[c v] evs]|] eqn:Er;
    simpl; [|done].
  intros [= <-]. by exists t, c, v, evs.
Qed.

(** ** The calls of one task *)

Lemma resume_calls i t v c v' evs j :
  resume transport clock i t v = Some (c, v', evs) →
  List.filter (by_task j) evs = if Nat.eqb j i then evs else [].
Proof.
  unfold resume, on_response.
  destruct (co t) as [[] n f|[|f] r|o]; simpl; try (intros [= <- <- <-]);
    try (by destruct (Nat.eqb j i)); try done.
  - destruct v; [done|]. intros [= <- <- <-]. simpl. by destruct (Nat.eqb j i).
  - destruct (transport i n) as [res|e]; [|intros [= <- <- <-]; by destruct (Nat.eqb j i)].
    destruct (400 <=? status res)%Z; [destruct (status res =? 429)%Z|];
      intros [= <- <- <-]; simpl; by destruct (Nat.eqb j i).
Qed.

Lemma throttled_calls_S i a n :
  throttled_calls i a (S n)
  = throttled_calls i a n ++ attempt_calls i a n ++ retry_calls i.
Proof.
  unfold throttled_calls. rewrite seq_S, flat_map_app. done.
Qed.

Lemma release_calls_nil i n : release_calls i n n = [].
Proof. unfold release_calls. by rewrite Nat.sub_diag. Qed.

Lemma release_calls_S i f n :
  f < n → release_calls i f n = release_calls i (S f) n ++ [release i f].
Proof.
  intros Hf. unfold release_calls.
  replace (n - f) with (S (n - S f)) by lia.
  simpl. by rewrite reverse_cons, fmap_app.
Qed.

(** ** One resumption preserves coherence *)

Lemma resume_coherent i t v c v' evs l :
  coherent transport clock i t l →
  resume transport clock i t v = Some (c, v', evs) →
  coherent transport clock i {| args := args t; co := c |} (l ++ evs).
Proof.
  unfold coherent, resume. simpl.
  destruct (co t) as [p n f|f r|o].
  - intros [Hthr Hp]. destruct p.
    + destruct Hp as [-> ->]. intros [= <- <- <-]. done.
    + destruct Hp as [-> ->]. destruct v; [done|]. intros [= <- <- <-].
      split; [done|]. split; [done|]. by rewrite <- app_assoc.
    + destruct Hp as [-> ->]. intros [= <- <- <-].
      split; [done|]. split; [done|]. by rewrite <- app_assoc.
    + destruct Hp as [-> ->].
      destruct (transport i n) as [res|e] eqn:Et.
      * unfold on_response.
        destruct (400 <=? status res)%Z eqn:E400;
          [destruct (status res =? 429)%Z eqn:E429|]; intros [= <- <- <-].
        -- split.
           ++ intros m Hm. destruct (decide (m = n)) as [->|]; [|apply Hthr; lia].
              rewrite Et. simpl. by rewrite E400, E429.
           ++ exists n. repeat split; try done. by rewrite <- !app_assoc.
        -- exists n. unfold settled, settled_calls, returned, closing_calls.
           rewrite Et, E400. simpl. rewrite E400, E429.
           repeat split; try done.
           by rewrite release_calls_nil, app_nil_r.
        -- exists n. unfold settled, settled_calls, returned, closing_calls.
           rewrite Et, E400. simpl. rewrite E400.
           repeat split; try done.
           by rewrite release_calls_nil, <- !app_assoc.
      * intros [= <- <- <-]. exists n.
        unfold settled, settled_calls, returned, closing_calls. rewrite Et.
        repeat split; try done.
        by rewrite release_calls_nil, app_nil_r.
    + destruct Hp as (n' & -> & -> & ->). intros [= <- <- <-].
      split; [done|]. split; [done|].
      rewrite throttled_calls_S. unfold retry_calls.
      by rewrite <- !app_assoc.
  - intros (n & Hs & -> & Hf & ->). destruct f as [|f]; intros [= <- <- <-].
    + exists n. by rewrite app_nil_r.
    + exists n. split; [done|]. split; [done|]. split; [lia|].
      unfold settled_calls. rewrite (release_calls_S i f (S n)) by lia.
      by rewrite <- !app_assoc.
  - done.
Qed.

(** ** One resumption keeps the slots accounted for *)

Lemma resume_slots i t v c v' evs :
  resume transport clock i t v = Some (c, v', evs) →
  v' + held {| args := args t; co := c |} = v + held t.
Proof.
  unfold resume, on_response, held. simpl.
  destruct (co t) as [[] n f|[|f] r|o]; try (intros [= <- <- <-]; lia); try done.
  - destruct v; [done|]. intros [= <- <- <-]. lia.
  - destruct (transport i n) as [res|e]; [|by intros [= <- <- <-]].
    destruct (400 <=? status res)%Z; [destruct (status res =? 429)%Z|];
      by intros [= <- <- <-].
Qed.

(** ** The invariant holds along every schedule *)

Variable n_jobs : nat.

Lemma start_slots calls : slots_held (start n_jobs calls) = 0.
Proof.
  unfold slots_held, start. simpl.
  induction calls as [|a calls IH]; [done|]. simpl. unfold fmap in IH.
  by rewrite IH.
Qed.

Lemma start_invariant calls :
  invariant transport clock n_jobs calls (start n_jobs calls).
Proof.
  split; [|split].
  - rewrite start_slots. simpl. lia.
  - simpl. rewrite <- list_fmap_compose. apply list_fmap_id.
  - intros i t. simpl. intros [a [-> _]]%list_lookup_fmap_Some.
    unfold coherent. simpl. split; [intros m Hm; lia|done].
Qed.

Lemma step_invariant calls s i s' :
  invariant transport clock n_jobs calls s →
  step transport clock i s = Some s' →
  invariant transport clock n_jobs calls s'.
Proof.
  intros (Hslots & Hargs & Hco) (t & c & v & evs & Ht & Hr & ->)%step_inv.
  unfold invariant, slots_held, calls_of in *. simpl. repeat split.
  - pose proof (sum_list_insert held (tasks s) i t
                  {| args := args t; co := c |} Ht) as Hsum.
    apply resume_slots in Hr. lia.
  - rewrite list_fmap_insert. simpl. rewrite <- Hargs.
    apply list_insert_id. by rewrite list_lookup_fmap, Ht.
  - intros j t'. rewrite List.filter_app, (resume_calls _ _ _ _ _ _ j Hr).
    destruct (decide (j = i)) as [->|Hne].
    + rewrite Nat.eqb_refl, list_lookup_insert_eq
        by (by eapply lookup_lt_Some).
      intros [= <-]. eapply resume_coherent; eauto.
    + rewrite list_lookup_insert_ne by done.
      apply Nat.eqb_neq in Hne as ->. rewrite app_nil_r. auto.
Qed.

Lemma reachable_invariant calls sched :
  invariant transport clock n_jobs calls
    (run transport clock sched (start n_jobs calls)).
Proof.
  apply run_invariant; [|apply start_invariant].
  intros s i s'. apply step_invariant.
Qed.

(** ** Reading the invariant *)

Lemma reachable_task calls sched i a :
  calls !! i = Some a →
  ∃ t, tasks (run transport clock sched (start n_jobs calls)) !! i = Some t
       ∧ args t = a.
Proof.
  intros Ha. destruct (reachable_invariant calls sched) as (_ & Hargs & _).
  rewrite <- Hargs, list_lookup_fmap in Ha.
  destruct (tasks _ !! i) as [t|]; [|done].
  injection Ha as <-. by exists t.
Qed.

Lemma coherent_in_flight i t l :
  coherent transport clock i t l → in_flight t ≤ held t.
Proof.
  unfold coherent, in_flight, held.
  destruct (co t) as [[] n f|f r|o]; simpl; lia.
Qed.

Lemma settled_unique i n n' :
  settled transport i n → settled transport i n' → n = n'.
Proof.
  intros [Hlt Hn] [Hlt' Hn'].
  destruct (Nat.lt_trichotomy n n') as [Hc|[Hc|Hc]]; [|done|].
  - apply Hlt' in Hc. congruence.
  - apply Hlt in Hc. congruence.
Qed.

(** What [gather] returns, position by position. *)
Lemma gather_outcomes calls sched results :
  gather (run transport clock sched (start n_jobs calls)) = Some results →
  length results = length calls
  ∧ ∀ i a, calls !! i = Some a →
      ∃ n, settled transport i n
           ∧ results !! i = Some (outcome_at transport clock i a n).
Proof.
  intros Hg%mapM_Some.
  destruct (reachable_invariant calls sched) as (_ & Hargs & Hco).
  split.
  - rewrite <- (Forall2_length _ _ _ Hg).
    by rewrite <- (length_fmap args), Hargs.
  - intros i a Ha.
    destruct (reachable_task calls sched i a Ha) as (t & Ht & <-).
    destruct (Forall2_lookup_l _ _ _ _ _ Hg Ht) as (o & Ho & Hout).
    specialize (Hco i t Ht). unfold outcome in Hout. unfold coherent in Hco.
    destruct (co t) as [| |o']; try done. injection Hout as ->.
    destruct Hco as (n & Hn & -> & _). by exists n.
Qed.

Lemma posts_open_held t : posts_open t ≤ held t.
Proof. unfold posts_open, held. destruct (co t) as [[] n f|f r|o]; lia. Qed.

(** C8: along every schedule of every batch, the calls in flight never
    outnumber the slots held, nor do the [session.post] blocks that are
    open; the slots held and the semaphore counter add up to [n_jobs], so
    at most [n_jobs] calls are in flight; a task with a call in flight
    holds a slot. *)
Theorem C8_concurrency_bound (calls : list call_args) (sched : list nat) :
  let s := run transport clock sched (start n_jobs calls) in
  calls_in_flight s ≤ slots_held s
  ∧ open_posts s ≤ slots_held s
  ∧ value s + slots_held s = n_jobs
  ∧ calls_in_flight s ≤ n_jobs
  ∧ ∀ i t, tasks s !! i = Some t → in_flight t ≤ held t.
Proof.
  intros s. destruct (reachable_invariant calls sched) as (Hslots & _ & Hco).
  fold s in Hslots, Hco.
  assert (∀ i t, tasks s !! i = Some t → in_flight t ≤ held t) as Hle.
  { intros i t Ht. eapply coherent_in_flight. eauto. }
  assert (calls_in_flight s ≤ slots_held s) by (by apply sum_list_le).
  assert (open_posts s ≤ slots_held s).
  { apply sum_list_le. intros i t _. apply posts_open_held. }
  repeat split; [done|done|done|lia|done].
Qed.

(** C1: whenever [gather] returns, it returns one entry per input row,
    and the entry at position [i] is the outcome of [call_openai_chat] on
    the arguments built from row [i] and the reply that settled task [i],
    whatever the schedule. *)
Theorem C1_index_alignment (prompt : string) (input_data : list row)
    (pydantic_model : option pydantic_model) (gpt_model : string)
    (sched : list nat) (results : list (result chat_result)) :
  gather (run transport clock sched
            (start n_jobs (call_of prompt pydantic_model gpt_model <$> input_data)))
    = Some results →
  length results = length input_data
  ∧ ∀ i r, input_data !! i = Some r →
      ∃ n, settled transport i n
           ∧ results !! i
             = Some (outcome_at transport clock i
                       (call_of prompt pydantic_model gpt_model r) n).
Proof.
  intros [Hlen Hat]%gather_outcomes. split.
  - by rewrite Hlen, length_fmap.
  - intros i r Hr. apply Hat. by rewrite list_lookup_fmap, Hr.
Qed.

(** Without a schema [async_call_open_ai_chat] returns the gathered list
    itself; with one it hands that list to
    [split_valid_and_invalid_records]. *)
Lemma async_call_returns_gathered (Partition : Type)
    (split : list (result chat_result) → pydantic_model → Partition)
    sched prompt input_data pydantic_model gpt_model :
  async_call_open_ai_chat transport clock n_jobs Partition split sched prompt
    input_data pydantic_model gpt_model
  = (results ← gather (run transport clock sched
                         (start n_jobs
                            (call_of prompt pydantic_model gpt_model <$> input_data)));
     Some match pydantic_model with
          | None => Outcomes Partition results
          | Some m => Partitioned Partition (split results m)
          end).
Proof. done. Qed.

(** ** The slots of one task *)

Lemma acquired_app l1 l2 : acquired (l1 ++ l2) = acquired l1 ++ acquired l2.
Proof. apply flat_map_app. Qed.

Lemma released_app l1 l2 : released (l1 ++ l2) = released l1 ++ released l2.
Proof. apply flat_map_app. Qed.

Lemma acquired_throttled i a n : acquired (throttled_calls i a n) = seq 0 n.
Proof.
  induction n as [|n IH]; [done|].
  by rewrite throttled_calls_S, acquired_app, IH, seq_S.
Qed.

Lemma released_throttled i a n : released (throttled_calls i a n) = [].
Proof.
  induction n as [|n IH]; [done|].
  by rewrite throttled_calls_S, released_app, IH.
Qed.

Lemma acquired_closing i r : acquired (closing_calls i r) = [].
Proof.
  destruct r as [res|]; [|done]. simpl. by destruct (400 <=? status res)%Z.
Qed.

Lemma released_closing i r : released (closing_calls i r) = [].
Proof.
  destruct r as [res|]; [|done]. simpl. by destruct (400 <=? status res)%Z.
Qed.

Lemma acquired_release_calls i lo hi : acquired (release_calls i lo hi) = [].
Proof.
  unfold release_calls. induction (reverse (seq lo (hi - lo))); [done|].
  done.
Qed.

Lemma released_release_calls i lo hi :
  released (release_calls i lo hi) = reverse (seq lo (hi - lo)).
Proof.
  unfold release_calls. induction (reverse (seq lo (hi - lo))) as [|k l IH];
    [done|].
  simpl. f_equal. apply IH.
Qed.

Lemma acquired_settled i a n f : acquired (settled_calls transport i a n f) = seq 0 (S n).
Proof.
  unfold settled_calls.
  rewrite !acquired_app, acquired_throttled, acquired_closing,
    acquired_release_calls, seq_S.
  done.
Qed.

Lemma released_settled i a n f :
  released (settled_calls transport i a n f) = reverse (seq f (S n - f)).
Proof.
  unfold settled_calls.
  rewrite !released_app, released_throttled, released_closing,
    released_release_calls.
  done.
Qed.

(** C9: a task that has seen [n] replies with status 429 holds the [n]
    slots of the activations that received them, none released, and a
    further one as soon as the retry has passed line 66; once a reply
    settles the task at activation [n], the blocks of the activations
    [n], [n-1], ..., 0 are left in that order, so each of the [n+1] slots
    it acquired is released exactly once, and only then is it finished. *)
Theorem C9_nested_slots (calls : list call_args) (sched : list nat) (i : nat)
    (t : task) :
  let s := run transport clock sched (start n_jobs calls) in
  tasks s !! i = Some t →
  match co t with
  | Run p n f =>
      (∀ m, m < n → throttled (transport i m) = true)
      ∧ held t = match p with AtPost | InFlight => S n | _ => n end
      ∧ acquired (calls_of i s) = seq 0 (held t)
      ∧ released (calls_of i s) = []
  | Unwind f r =>
      ∃ n, settled transport i n
           ∧ held t = f ∧ f ≤ S n
           ∧ acquired (calls_of i s) = seq 0 (S n)
           ∧ released (calls_of i s) = reverse (seq f (S n - f))
  | Done o =>
      ∃ n, settled transport i n
           ∧ held t = 0
           ∧ acquired (calls_of i s) = seq 0 (S n)
           ∧ released (calls_of i s) = reverse (seq 0 (S n))
  end.
Proof.
  intros s Ht. destruct (reachable_invariant calls sched) as (_ & _ & Hco).
  specialize (Hco i t Ht). fold s in Hco. unfold coherent, held in *.
  destruct (co t) as [p n f|f r|o].
  - destruct Hco as [Hthr Hp]. split; [done|].
    destruct p; simpl.
    + destruct Hp as [-> ->].
      by rewrite acquired_throttled, released_throttled.
    + destruct Hp as [-> ->].
      rewrite acquired_app, released_app, acquired_throttled,
        released_throttled.
      by rewrite app_nil_r.
    + destruct Hp as [-> ->].
      rewrite acquired_app, released_app, acquired_throttled,
        released_throttled, seq_S.
      done.
    + destruct Hp as [-> ->].
      rewrite acquired_app, released_app, acquired_throttled,
        released_throttled, seq_S.
      done.
    + destruct Hp as (n' & -> & -> & ->).
      rewrite !acquired_app, !released_app, acquired_throttled,
        released_throttled, seq_S.
      done.
  - destruct Hco as (n & Hn & _ & Hf & ->). exists n.
    by rewrite acquired_settled, released_settled.
  - destruct Hco as (n & Hn & _ & ->). exists n.
    rewrite acquired_settled, released_settled.
    by replace (S n - 0) with (S n) by lia.
Qed.

(** ** The request bodies *)

Lemma sends_app a l1 l2 : sends a l1 → sends a l2 → sends a (l1 ++ l2).
Proof. unfold sends. rewrite Forall_app. done. Qed.

Lemma sends_attempt i a level : sends a (attempt_calls i a level).
Proof. unfold sends, attempt_calls. repeat constructor. Qed.

Lemma sends_throttled i a n : sends a (throttled_calls i a n).
Proof.
  induction n as [|n IH]; [by constructor|].
  rewrite throttled_calls_S.
  repeat apply sends_app; [done|apply sends_attempt|].
  unfold sends, retry_calls. repeat constructor.
Qed.

Lemma sends_closing i a r : sends a (closing_calls i r).
Proof.
  unfold sends. destruct r as [res|]; simpl; [|by constructor].
  destruct (400 <=? status res)%Z; repeat constructor.
Qed.

Lemma sends_release_calls i a lo hi : sends a (release_calls i lo hi).
Proof.
  unfold sends, release_calls. apply Forall_fmap, Forall_true. done.
Qed.

Lemma sends_settled i a n f : sends a (settled_calls transport i a n f).
Proof.
  unfold settled_calls.
  repeat apply sends_app;
    auto using sends_throttled, sends_attempt, sends_closing,
      sends_release_calls.
Qed.

Lemma coherent_sends i t l : coherent transport clock i t l → sends (args t) l.
Proof.
  unfold coherent.
  destruct (co t) as [p n f|f r|o].
  - intros [_ Hp]. destruct p.
    + destruct Hp as [_ ->]. apply sends_throttled.
    + destruct Hp as [_ ->]. apply sends_app; [apply sends_throttled|].
      unfold sends. repeat constructor.
    + destruct Hp as [_ ->]. apply sends_app; [apply sends_throttled|].
      unfold sends. repeat constructor.
    + destruct Hp as [_ ->].
      apply sends_app; [apply sends_throttled|apply sends_attempt].
    + destruct Hp as (n' & _ & _ & ->).
      repeat apply sends_app; [apply sends_throttled|apply sends_attempt|].
      unfold sends. repeat constructor.
  - intros (n & _ & _ & _ & ->). apply sends_settled.
  - intros (n & _ & _ & ->). apply sends_settled.
Qed.

Lemma request_data_response_format a :
  dict_get "response_format" (request_data a) =
    match arg_pydantic_model a with
    | Some m => Some (response_format_as_specified m)
    | None => None
    end.
Proof. unfold request_data. by destruct (arg_pydantic_model a). Qed.

(** C6: every body that a task of the batch posts is the one built from
    its call; with a schema its [response_format] is the worded object,
    whose [schema] is [model_json_schema()] with [additionalProperties]
    set to [False] and every other key as it was; without a schema the
    body has no [response_format]. *)
Theorem C6_wire_payload (calls : list call_args) (sched : list nat) (i : nat)
    (a : call_args) (data : dict) :
  calls !! i = Some a →
  In (post i data) (log (run transport clock sched (start n_jobs calls))) →
  data = request_data a
  ∧ dict_get "response_format" data =
      match arg_pydantic_model a with
      | Some m => Some (response_format_as_specified m)
      | None => None
      end
  ∧ ∀ m, arg_pydantic_model a = Some m →
      let schema := dict_set "additionalProperties" (JBool false)
                      (model_json_schema m) in
      dict_get "additionalProperties" schema = Some (JBool false)
      ∧ ∀ k, k ≠ "additionalProperties" →
             dict_get k schema = dict_get k (model_json_schema m).
Proof.
  intros Ha Hin.
  destruct (reachable_task calls sched i a Ha) as (t & Ht & <-).
  destruct (reachable_invariant calls sched) as (_ & _ & Hco).
  apply Hco, coherent_sends in Ht. unfold sends, calls_of in Ht.
  rewrite List.Forall_forall in Ht.
  specialize (Ht (post i data)). simpl in Ht.
  rewrite List.filter_In in Ht. simpl in Ht. rewrite Nat.eqb_refl in Ht.
  specialize (Ht (conj Hin eq_refl)). subst data.
  split; [done|]. split; [apply request_data_response_format|].
  intros m _ schema. split; [apply dict_get_set_eq|].
  intros k Hk. by apply dict_get_set_ne.
Qed.

End Machine_properties.

(** ** Two transports that differ on one task *)

Section Isolation.
Context `{Collaborators}.
Variable clock : nat → datetime.
Variable n_jobs : nat.

(** [transport'] is [transport] with other replies for task [j]: failures
    or other bodies in place of the replies that settle, never a 429 in
    place of another status nor another status in place of a 429. *)
Variables transport transport' : nat → nat → reply.
Variable j : nat.
Hypothesis elsewhere : ∀ i n, i ≠ j → transport' i n = transport i n.
Hypothesis same_throttling :
  ∀ n, throttled (transport' j n) = throttled (transport j n).

(** Two coroutines at the same point of the code, whatever they carry. *)
Definition same_point (c c' : coroutine) : Prop :=
  match c, c' with
  | Run p n f, Run p' n' f' => p = p' ∧ n = n' ∧ f = f'
  | Unwind f _, Unwind f' _ => f = f'
  | Done _, Done _ => True
  | _, _ => False
  end.

Definition alike (t t' : task) : Prop :=
  args t = args t' ∧ same_point (co t) (co t').

(** The two batches seen side by side: same counter, every task at the
    same point, every task but [j] in the very same state. *)
Definition lockstep (s s' : state) : Prop :=
  value s = value s'
  ∧ Forall2 alike (tasks s) (tasks s')
  ∧ ∀ i, i ≠ j → tasks s !! i = tasks s' !! i.

Lemma alike_refl t : alike t t.
Proof.
  split; [done|]. unfold same_point. by destruct (co t) as [p n f| |].
Qed.

Lemma resume_elsewhere i t v :
  i ≠ j → resume transport' clock i t v = resume transport clock i t v.
Proof.
  intros Hi. unfold resume. destruct (co t) as [[] n f|f r|o]; try done.
  by rewrite elsewhere.
Qed.

Lemma on_response_unthrottled i res n f :
  throttled (Answered res) = false →
  ∃ r evs, on_response i res n f = (Unwind f r, evs).
Proof.
  unfold throttled, on_response.
  destruct (400 <=? status res)%Z; [destruct (status res =? 429)%Z|];
    simpl; try done; eauto.
Qed.

Lemma on_response_throttled i res n f :
  throttled (Answered res) = true →
  on_response i res n f = (Run AtRetryWait (S n) f, [warning i]).
Proof.
  unfold throttled, on_response.
  destruct (400 <=? status res)%Z; [destruct (status res =? 429)%Z|];
    simpl; done.
Qed.

(** At [InFlight] the next point depends on the reply through
    [throttled] alone. *)
Lemma resume_in_flight tr i t v n f :
  co t = Run InFlight n f →
  if throttled (tr i n)
  then ∃ evs, resume tr clock i t v = Some (Run AtRetryWait (S n) f, v, evs)
  else ∃ r evs, resume tr clock i t v = Some (Unwind f r, v, evs).
Proof.
  intros Hco. unfold resume. rewrite Hco.
  destruct (tr i n) as [res|e] eqn:Et; simpl; [|eauto].
  destruct ((400 <=? status res)%Z && (status res =? 429)%Z) eqn:Ethr.
  - rewrite on_response_throttled by done. eauto.
  - destruct (on_response_unthrottled i res n f Ethr) as (r & evs & ->). eauto.
Qed.

Lemma resume_alike t t' v :
  alike t t' →
  match resume transport clock j t v, resume transport' clock j t' v with
  | Some (c, v1, _), Some (c', v1', _) => v1 = v1' ∧ same_point c c'
  | None, None => True
  | _, _ => False
  end.
Proof.
  intros [Ha Hp]. unfold same_point in Hp.
  destruct (co t) as [p n f|f r|o] eqn:Ec, (co t') as [p' n' f'|f' r'|o'] eqn:Ec';
    try done.
  - destruct Hp as (<- & <- & <-). destruct p.
    + unfold resume. by rewrite Ec, Ec'.
    + unfold resume. rewrite Ec, Ec'. by destruct v.
    + unfold resume. by rewrite Ec, Ec'.
    + pose proof (resume_in_flight transport j t v n f Ec) as Hr.
      pose proof (resume_in_flight transport' j t' v n f Ec') as Hr'.
      rewrite same_throttling in Hr'.
      destruct (throttled (transport j n)).
      * destruct Hr as [evs ->], Hr' as [evs' ->]. done.
      * destruct Hr as (r & evs & ->), Hr' as (r' & evs' & ->). done.
    + unfold resume. by rewrite Ec, Ec'.
  - subst f'. unfold resume. rewrite Ec, Ec'. by destruct f.
  - unfold resume. by rewrite Ec, Ec'.
Qed.

Lemma turn_lockstep s s' i :
  lockstep s s' →
  lockstep (turn transport clock s i) (turn transport' clock s' i).
Proof.
  intros (Hv & Hall & Heq). unfold turn, step.
  destruct (decide (i = j)) as [->|Hi].
  - destruct (tasks s !! j) as [t|] eqn:Et.
    + destruct (Forall2_lookup_l _ _ _ _ _ Hall Et) as (t' & Et' & Halike).
      rewrite Et'. simpl.
      pose proof (resume_alike t t' (value s) Halike) as Hr.
      rewrite <- Hv.
      destruct (resume transport clock j t (value s)) as [[[c v1] evs]|],
        (resume transport' clock j t' (value s)) as [[[c' v1'] evs']|];
        simpl; try done.
      destruct Hr as [<- Hp]. split; [done|]. simpl. split.
      * apply Forall2_insert; [done|]. split; [apply Halike|done].
      * intros i Hi. rewrite !list_lookup_insert_ne by done. auto.
    + assert (tasks s' !! j = None) as ->.
      { apply lookup_ge_None. rewrite <- (Forall2_length _ _ _ Hall).
        by apply lookup_ge_None. }
      done.
  - rewrite <- (Heq i Hi).
    destruct (tasks s !! i) as [t|] eqn:Et; simpl; [|done].
    rewrite resume_elsewhere, <- Hv by done.
    destruct (resume transport clock i t (value s)) as [[[c v1] evs]|]; simpl;
      [|done].
    split; [done|]. simpl. split.
    + apply Forall2_insert; [done|]. apply alike_refl.
    + intros i' Hi'. destruct (decide (i' = i)) as [->|Hne].
      * assert (i < length (tasks s)) by (by eapply lookup_lt_Some).
        rewrite !list_lookup_insert_eq;
          [done|by rewrite <- (Forall2_length _ _ _ Hall)|done].
      * rewrite !list_lookup_insert_ne by done. auto.
Qed.

Lemma run_lockstep sched s s' :
  lockstep s s' →
  lockstep (run transport clock sched s) (run transport' clock sched s').
Proof.
  revert s s'. induction sched as [|i sched IH]; intros s s' Hl; [done|].
  rewrite !run_cons. by apply IH, turn_lockstep.
Qed.

Lemma start_lockstep calls : lockstep (start n_jobs calls) (start n_jobs calls).
Proof.
  split; [done|]. split; [|done].
  apply Forall_Forall2_diag, Forall_forall. intros t _. apply alike_refl.
Qed.

(** A finished batch stays finished under the other transport. *)
Lemma gather_lockstep s s' rs :
  lockstep s s' → gather s = Some rs →
  ∃ rs', gather s' = Some rs' ∧ ∀ i, i ≠ j → rs' !! i = rs !! i.
Proof.
  intros (_ & Hall & Heq) Hg.
  assert (is_Some (gather s')) as [rs' Hg'].
  { apply mapM_is_Some, Forall_lookup. intros i t' Ht'.
    destruct (Forall2_lookup_r _ _ _ _ _ Hall Ht') as (t & Ht & _ & Hp).
    apply mapM_Some in Hg.
    destruct (Forall2_lookup_l _ _ _ _ _ Hg Ht) as (o & _ & Ho).
    unfold outcome in *. simpl. unfold same_point in Hp.
    destruct (co t); try done. destruct (co t'); try done. }
  exists rs'. split; [done|]. intros i Hi.
  apply mapM_Some in Hg, Hg'. specialize (Heq i Hi).
  destruct (tasks s !! i) as [t|] eqn:Et.
  - symmetry in Heq.
    destruct (Forall2_lookup_l _ _ _ _ _ Hg Et) as (o & -> & Ho).
    destruct (Forall2_lookup_l _ _ _ _ _ Hg' Heq) as (o' & -> & Ho').
    congruence.
  - symmetry in Heq.
    apply lookup_ge_None in Et, Heq.
    rewrite (Forall2_length _ _ _ Hg) in Et.
    rewrite (Forall2_length _ _ _ Hg') in Heq.
    apply lookup_ge_None in Et, Heq. congruence.
Qed.

(** Take any schedule of any batch and change the replies to task [j]
    into failures of any kind (a refused connection, an error status
    other than 429, a body that is malformed or does not fit the schema).
    At every point of the schedule the semaphore counter and the state of
    every other task are what they were without the failure; whenever the
    batch returned without it, it returns with it, with one entry per
    call, the same entry at every position but [j], at every position
    the outcome of that position's own call, and at position [j] the
    exception that the call raised, when it raised one.  Whether the
    batch returns at all is another matter: see the calls that are
    throttled as often as the semaphore has slots. *)
Lemma failure_leaves_siblings_in_step (calls : list call_args)
    (sched : list nat) :
  let s := run transport clock sched (start n_jobs calls) in
  let s' := run transport' clock sched (start n_jobs calls) in
  value s' = value s
  ∧ (∀ i, i ≠ j → tasks s' !! i = tasks s !! i)
  ∧ ∀ rs, gather s = Some rs →
      ∃ rs', gather s' = Some rs'
             ∧ length rs' = length calls
             ∧ (∀ i, i ≠ j → rs' !! i = rs !! i)
             ∧ (∀ i a, calls !! i = Some a →
                  ∃ n, settled transport' i n
                       ∧ rs' !! i = Some (outcome_at transport' clock i a n))
             ∧ ∀ a n e, calls !! j = Some a → settled transport' j n →
                 outcome_at transport' clock j a n = Raise e →
                 rs' !! j = Some (Raise e).
Proof.
  intros s s'.
  pose proof (run_lockstep sched _ _ (start_lockstep calls)) as Hl.
  fold s s' in Hl. split; [|split].
  - symmetry. apply Hl.
  - intros i Hi. symmetry. by apply Hl.
  - intros rs Hg.
    destruct (gather_lockstep s s' rs Hl Hg) as (rs' & Hg' & Hrs).
    exists rs'. split; [done|].
    destruct (gather_outcomes transport' clock n_jobs calls sched rs' Hg')
      as [Hlen Hat].
    repeat split; try done.
    intros a n e Ha Hn He.
    destruct (Hat j a Ha) as (n' & Hn' & ->).
    by rewrite (settled_unique transport' j n' n Hn' Hn), He.
Qed.

End Isolation.

(** ** A call on its own *)

Section Lone_call.
Context `{Collaborators}.
Variable clock : nat → datetime.

Lemma resume_throttled tr i a v n f :
  throttled (tr i n) = true →
  resume tr clock i {| args := a; co := Run InFlight n f |} v
  = Some (Run AtRetryWait (S n) f, v, [warning i]).
Proof.
  unfold resume, throttled, on_response. simpl.
  destruct (tr i n) as [res|]; [|done].
  destruct (400 <=? status res)%Z; [destruct (status res =? 429)%Z|]; done.
Qed.

Lemma resume_settled tr i a v n f :
  throttled (tr i n) = false →
  resume tr clock i {| args := a; co := Run InFlight n f |} v
  = Some (Unwind f (returned (tr i n)), v, closing_calls i (tr i n)).
Proof.
  unfold resume, throttled, on_response, returned, closing_calls. simpl.
  destruct (tr i n) as [res|]; [|done].
  destruct (400 <=? status res)%Z; [destruct (status res =? 429)%Z|]; done.
Qed.

(** In a batch of one call only task 0 can be resumed. *)
Lemma step_lone tr i v t l :
  step tr clock i {| value := v; tasks := [t]; log := l |} =
    match i with
    | 0 =>
        '(c, v', evs) ← resume tr clock 0 t v;
        Some {| value := v'; tasks := [{| args := args t; co := c |}];
                log := l ++ evs |}
    | S _ => None
    end.
Proof. by destruct i. Qed.

Lemma turn_lone tr v t l :
  turn tr clock {| value := v; tasks := [t]; log := l |} 0 =
    match resume tr clock 0 t v with
    | Some (c, v', evs) =>
        {| value := v'; tasks := [{| args := args t; co := c |}];
           log := l ++ evs |}
    | None => {| value := v; tasks := [t]; log := l |}
    end.
Proof.
  unfold turn. rewrite step_lone.
  by destruct (resume tr clock 0 t v) as [[[c v'] evs]|].
Qed.

Ltac resume_lone :=
  rewrite turn_lone;
  first [ rewrite resume_throttled by done
        | rewrite resume_settled by done
        | unfold resume at 1; cbn [co args] ].

Lemma closing_calls_by_task i r :
  List.filter (by_task i) (closing_calls i r) = closing_calls i r.
Proof.
  destruct r as [res|]; [|done]. simpl.
  destruct (400 <=? status res)%Z; [done|]. simpl. by rewrite Nat.eqb_refl.
Qed.

Lemma waits_again_closing i r : waits_again (closing_calls i r) = [].
Proof.
  destruct r as [res|]; [|done]. simpl. by destruct (400 <=? status res)%Z.
Qed.

Lemma run_answered tr a v :
  throttled (tr 0 0) = false →
  run tr clock (replicate 6 0) (start (S v) [a])
  = {| value := S v;
       tasks := [{| args := a;
                    co := Done (call_openai_chat_after a (clock 0)
                                  (returned (tr 0 0))) |}];
       log := log (start (S v) [a]) ++ attempt_calls 0 a 0
                ++ closing_calls 0 (tr 0 0) ++ [release 0 0] |}.
Proof.
  intros H0. unfold run, start. cbn [replicate foldl fmap list_fmap].
  do 6 resume_lone. cbn [log]. f_equal.
  by rewrite app_nil_r, <- !app_assoc.
Qed.

Lemma run_throttled_once tr a v :
  throttled (tr 0 0) = true →
  throttled (tr 0 1) = false →
  run tr clock (replicate 12 0) (start (S (S v)) [a])
  = {| value := S (S v);
       tasks := [{| args := a;
                    co := Done (call_openai_chat_after a (clock 0)
                                  (returned (tr 0 1))) |}];
       log := log (start (S (S v)) [a]) ++ attempt_calls 0 a 0
                ++ retry_calls 0 ++ attempt_calls 0 a 1
                ++ closing_calls 0 (tr 0 1) ++ [release 0 1; release 0 0] |}.
Proof.
  intros H0 H1. unfold run, start. cbn [replicate foldl fmap list_fmap].
  do 12 resume_lone. cbn [log]. f_equal.
  by rewrite app_nil_r, <- !app_assoc.
Qed.

(** When the gate has room for two, a call answered 429 and then settled
    returns what the same call returns when it is answered at once with
    the settling reply; between the two attempts it waits once at line 75,
    and the retry then starts over at line 65. *)
Theorem retry_with_room (tr tr' : nat → nat → reply) (a : call_args)
    (n_jobs : nat) :
  2 ≤ n_jobs →
  throttled (tr 0 0) = true →
  throttled (tr 0 1) = false →
  tr' 0 0 = tr 0 1 →
  let s := run tr clock (replicate 12 0) (start n_jobs [a]) in
  let s' := run tr' clock (replicate 6 0) (start n_jobs [a]) in
  gather s = Some [call_openai_chat_after a (clock 0) (returned (tr 0 1))]
  ∧ gather s' = gather s
  ∧ calls_of 0 s
    = attempt_calls 0 a 0 ++ retry_calls 0 ++ attempt_calls 0 a 1
        ++ closing_calls 0 (tr 0 1) ++ [release 0 1; release 0 0]
  ∧ waits_again (calls_of 0 s) = [wait_for_availability 0 None].
Proof.
  intros Hn H0 H1 Htr' s s'.
  destruct n_jobs as [|[|n_jobs]]; [lia|lia|].
  assert (throttled (tr' 0 0) = false) as H0' by (by rewrite Htr').
  subst s s'. rewrite run_throttled_once, run_answered by done.
  rewrite Htr'. split; [done|]. split; [done|].
  unfold calls_of. cbn [log start].
  rewrite !List.filter_app, closing_calls_by_task.
  split; [done|].
  unfold waits_again. rewrite !List.filter_app.
  fold (waits_again (closing_calls 0 (tr 0 1))).
  by rewrite waits_again_closing.
Qed.

End Lone_call.

(** ** A gate that all its holders wait for *)

Section Deadlock.
Context `{Collaborators}.
Variable transport : nat → nat → reply.
Variable clock : nat → datetime.

Lemma turn_insert ts k t c v v' evs l :
  k < length ts →
  resume transport clock k t v = Some (c, v', evs) →
  turn transport clock {| value := v; tasks := <[k:=t]> ts; log := l |} k
  = {| value := v';
       tasks := <[k:={| args := args t; co := c |}]> ts;
       log := l ++ evs |}.
Proof.
  intros Hk Hr. unfold turn, step. simpl.
  rewrite list_lookup_insert_eq by done. simpl. rewrite Hr. simpl.
  by rewrite list_insert_insert_eq.
Qed.

(** Six resumptions take a fresh task that is answered 429 to line 66
    again, one slot in hand. *)
Lemma park_one_state ts l k a v :
  k < length ts →
  throttled (transport k 0) = true →
  ∃ l', run transport clock (replicate 6 k)
          {| value := S v; tasks := <[k:=fresh a]> ts; log := l |}
        = {| value := v; tasks := <[k:=parked a]> ts; log := l' |}.
Proof.
  intros Hk Hthr. unfold run, fresh. cbn [replicate foldl].
  do 3 (erewrite turn_insert; [|done|unfold resume; cbn [co args]; reflexivity]).
  cbn [args].
  erewrite turn_insert; [|done|by apply resume_throttled].
  do 2 (erewrite turn_insert; [|done|unfold resume; cbn [co args]; reflexivity]).
  cbn [args]. by eexists.
Qed.

Lemma park_one s k a v :
  tasks s !! k = Some (fresh a) →
  value s = S v →
  throttled (transport k 0) = true →
  value (run transport clock (replicate 6 k) s) = v
  ∧ tasks (run transport clock (replicate 6 k) s) = <[k:=parked a]> (tasks s).
Proof.
  destruct s as [v0 ts l]. cbn [value tasks]. intros Ht -> Hthr.
  assert (k < length ts) as Hk by (by eapply lookup_lt_Some).
  destruct (park_one_state ts l k a v Hk Hthr) as [l' Hrun].
  rewrite (list_insert_id ts k (fresh a) Ht) in Hrun. by rewrite Hrun.
Qed.

Lemma park_all calls k :
  k ≤ length calls →
  (∀ i, i < length calls → throttled (transport i 0) = true) →
  let s := run transport clock (parking_schedule k)
             (start (length calls) calls) in
  value s = length calls - k
  ∧ tasks s = (parked <$> take k calls) ++ (fresh <$> drop k calls).
Proof.
  intros Hk Hthr. induction k as [|k IH].
  - simpl. split; [lia|]. by rewrite drop_0.
  - destruct IH as [IHv IHt]; [lia|].
    unfold parking_schedule in *. rewrite seq_S, flat_map_app, run_app.
    cbn [flat_map Nat.add]. rewrite app_nil_r.
    destruct (lookup_lt_is_Some_2 calls k) as [a Ha]; [lia|].
    destruct (park_one (run transport clock (flat_map (replicate 6) (seq 0 k))
                          (start (length calls) calls))
                k a (length calls - S k)) as [Hv Ht].
    + rewrite IHt, lookup_app_r by (rewrite length_fmap, length_take; lia).
      rewrite length_fmap, length_take, Nat.min_l, Nat.sub_diag by lia.
      by rewrite list_lookup_fmap, lookup_drop, Nat.add_0_r, Ha.
    + rewrite IHv. lia.
    + apply Hthr. lia.
    + split; [done|]. rewrite Ht, IHt.
      rewrite (take_S_r calls k a Ha), (drop_S calls a k Ha), fmap_app.
      rewrite insert_app_r_alt by (rewrite length_fmap, length_take; lia).
      rewrite length_fmap, length_take, Nat.min_l, Nat.sub_diag by lia.
      simpl. by rewrite <- app_assoc.
Qed.

(** With the counter at 0 and every task at line 66, no task can be
    resumed. *)
Lemma all_parked_stuck s sched :
  value s = 0 →
  Forall (λ t, ∃ n f, co t = Run AtGate n f) (tasks s) →
  run transport clock sched s = s.
Proof.
  intros Hv Hall. induction sched as [|i sched IH]; [done|].
  rewrite run_cons.
  assert (turn transport clock s i = s) as ->; [|done].
  unfold turn, step. destruct (tasks s !! i) as [t|] eqn:Et; [|done].
  rewrite Forall_lookup in Hall. destruct (Hall i t Et) as (n & f & Hco).
  simpl. unfold resume. by rewrite Hco, Hv.
Qed.

(** Whatever [n_jobs], a batch of [n_jobs] calls whose first replies are
    all 429 has a schedule after which every slot is held by a task whose
    retry waits for a slot: no continuation of it lets [gather] return. *)
Theorem deadlock_at_every_capacity (calls : list call_args)
    (sched : list nat) :
  calls ≠ [] →
  (∀ i, i < length calls → throttled (transport i 0) = true) →
  gather (run transport clock (parking_schedule (length calls) ++ sched)
            (start (length calls) calls)) = None.
Proof.
  intros Hne Hthr.
  destruct (park_all calls (length calls)) as [Hv Ht]; [done|done|].
  rewrite Nat.sub_diag in Hv.
  rewrite firstn_all, drop_all in Ht. simpl in Ht. rewrite app_nil_r in Ht.
  rewrite run_app, all_parked_stuck; [|done|].
  - unfold gather. rewrite Ht. destruct calls as [|a calls]; done.
  - rewrite Ht. apply Forall_fmap, Forall_true. intros a. by exists 1, 1.
Qed.

End Deadlock.

(** ** Schedules and what they can change *)

Section Schedules.
Context `{Collaborators}.
Variable transport : nat → nat → reply.
Variable clock : nat → datetime.
Variable n_jobs : nat.

Lemma sum_list_pos {A} (f : A → nat) (l : list A) :
  0 < sum_list (f <$> l) → ∃ i x, l !! i = Some x ∧ 0 < f x.
Proof.
  induction l as [|y l IH]; simpl; [lia|].
  destruct (decide (0 < f y)) as [Hy|Hy].
  - intros _. by exists 0, y.
  - intros Hs. destruct IH as (i & x & Hi & Hx); [unfold fmap in *; lia|].
    by exists (S i), x.
Qed.

Hypothesis never_throttled : ∀ i n, throttled (transport i n) = false.

Lemma coherent_first_attempt i t l p n f :
  coherent transport clock i t l → co t = Run p n f → n = 0.
Proof.
  unfold coherent. intros Hco Ht. rewrite Ht in Hco.
  destruct Hco as [Hthr _]. destruct n as [|n]; [done|].
  specialize (Hthr 0 ltac:(lia)). by rewrite never_throttled in Hthr.
Qed.

(** A resumption brings the task closer to its end. *)
Lemma resume_remaining i t l v c v' evs :
  coherent transport clock i t l →
  resume transport clock i t v = Some (c, v', evs) →
  remaining {| args := args t; co := c |} < remaining t.
Proof.
  intros Hco Hr. unfold remaining. simpl.
  destruct (co t) as [p n f|f r|o] eqn:Ht.
  - pose proof (coherent_first_attempt i t l p n f Hco Ht) as ->.
    unfold coherent in Hco. rewrite Ht in Hco. destruct Hco as [_ Hp].
    destruct p.
    + unfold resume in Hr. rewrite Ht in Hr. injection Hr as <- _ _. lia.
    + unfold resume in Hr. rewrite Ht in Hr.
      destruct v; [done|]. injection Hr as <- _ _. lia.
    + unfold resume in Hr. rewrite Ht in Hr. injection Hr as <- _ _. lia.
    + destruct Hp as [-> _].
      pose proof (resume_in_flight clock transport i t v 0 1 Ht) as Hr'.
      rewrite never_throttled in Hr'. destruct Hr' as (r & evs' & Hr').
      rewrite Hr' in Hr. injection Hr as <- _ _. lia.
    + by destruct Hp as (n' & Hn & _).
  - unfold resume in Hr. rewrite Ht in Hr.
    destruct f; injection Hr as <- _ _; lia.
  - unfold resume in Hr. by rewrite Ht in Hr.
Qed.

(** A task that is not finished can be resumed when the semaphore has a
    slot or the task holds one. *)
Lemma resume_enabled i t l v :
  coherent transport clock i t l →
  0 < v ∨ 0 < held t →
  outcome t = None →
  is_Some (resume transport clock i t v).
Proof.
  intros Hco Hv Hout. unfold outcome in Hout.
  destruct (co t) as [p n f|f r|o] eqn:Ht; [| |done].
  - pose proof (coherent_first_attempt i t l p n f Hco Ht) as ->.
    unfold coherent in Hco. rewrite Ht in Hco. destruct Hco as [_ Hp].
    destruct p.
    + unfold resume. rewrite Ht. eauto.
    + unfold resume, held in *. rewrite Ht in *. destruct Hp as [-> _].
      destruct v; [lia|eauto].
    + unfold resume. rewrite Ht. eauto.
    + pose proof (resume_in_flight clock transport i t v 0 f Ht) as Hr.
      rewrite never_throttled in Hr. destruct Hr as (r & evs & ->). eauto.
    + unfold resume. rewrite Ht. eauto.
  - unfold resume. rewrite Ht. destruct f; eauto.
Qed.

Lemma unfinished s :
  gather s = None → ∃ i t, tasks s !! i = Some t ∧ outcome t = None.
Proof.
  intros Hg.
  assert (¬ Forall (is_Some ∘ outcome) (tasks s)) as Hn.
  { intros Hall%mapM_is_Some. unfold gather in Hg. rewrite Hg in Hall.
    by destruct Hall. }
  apply not_Forall_Exists in Hn; [|apply _].
  apply Exists_exists in Hn as (t & Hin & Ht).
  apply list_elem_of_lookup in Hin as [i Hi].
  exists i, t. split; [done|]. simpl in Ht.
  destruct (outcome t); [|done]. destruct Ht. eauto.
Qed.

(** While the batch is unfinished some task can be resumed, and the
    resumption brings the batch closer to its end. *)
Lemma progress calls s :
  1 ≤ n_jobs →
  invariant transport clock n_jobs calls s →
  gather s = None →
  ∃ i s', step transport clock i s = Some s' ∧ work s' < work s.
Proof.
  intros Hn (Hslots & _ & Hco) Hg.
  assert (∃ i t, tasks s !! i = Some t ∧ outcome t = None
                 ∧ (0 < value s ∨ 0 < held t)) as (i & t & Ht & Hout & Hv).
  { destruct (unfinished s Hg) as (i & t & Ht & Hout).
    destruct (decide (0 < value s)) as [Hv|Hv]; [by eauto 10|].
    destruct (sum_list_pos held (tasks s)) as (j & t' & Ht' & Hheld);
      [unfold slots_held in Hslots; lia|].
    exists j, t'. repeat split; [done| |by right].
    unfold outcome, held in *. by destruct (co t'); [| |lia]. }
  destruct (resume_enabled i t _ (value s) (Hco i t Ht) Hv Hout)
    as [[[c v'] evs] Hr].
  eexists i, _. split.
  - unfold step. rewrite Ht. simpl. rewrite Hr. simpl. reflexivity.
  - unfold work. simpl.
    pose proof (sum_list_insert remaining (tasks s) i t
                  {| args := args t; co := c |} Ht).
    pose proof (resume_remaining i t _ _ _ _ _ (Hco i t Ht) Hr).
    lia.
Qed.

Lemma completes_from calls w s :
  1 ≤ n_jobs →
  work s ≤ w →
  invariant transport clock n_jobs calls s →
  ∃ sched, is_Some (gather (run transport clock sched s)).
Proof.
  intros Hn. revert s. induction w as [|w IH]; intros s Hw Hinv.
  - exists []. simpl. destruct (gather s) eqn:Hg; [eauto|].
    destruct (progress calls s Hn Hinv Hg) as (i & s' & _ & Hlt). lia.
  - destruct (gather s) eqn:Hg; [exists []; simpl; rewrite Hg; eauto|].
    destruct (progress calls s Hn Hinv Hg) as (i & s' & Hstep & Hlt).
    destruct (IH s') as [sched Hs]; [lia|by eapply step_invariant|].
    exists (i :: sched). rewrite run_cons. unfold turn. by rewrite Hstep.
Qed.

(** When no reply is a 429 and the gate has a slot, every prefix of a
    schedule can be continued until [gather] returns: failures of any
    other kind never keep the batch from returning. *)
Theorem completes_when_never_throttled (calls : list call_args)
    (sched : list nat) :
  1 ≤ n_jobs →
  ∃ sched', is_Some (gather (run transport clock (sched ++ sched')
                               (start n_jobs calls))).
Proof.
  intros Hn.
  destruct (completes_from calls
              (work (run transport clock sched (start n_jobs calls)))
              (run transport clock sched (start n_jobs calls)))
    as [sched' Hs]; [done|done|apply reachable_invariant|].
  exists sched'. by rewrite run_app.
Qed.

End Schedules.

(* ================================================================== *)
(** * Part VII. The model on concrete batches *)
(* ================================================================== *)

(** The theorems above applied to the batches of [Demo]: each hypothesis
    is discharged by evaluating the model. *)

Lemma C1_index_alignment_witness :
  length Demo.results = length Demo.rows
  ∧ ∀ i r, Demo.rows !! i = Some r →
      ∃ n, settled Demo.replies i n
           ∧ Demo.results !! i
             = Some (outcome_at Demo.replies Demo.clock i
                       (call_of "Capital of" None DEFAULT_MODEL r) n).
Proof.
  exact (C1_index_alignment Demo.replies Demo.clock 2 "Capital of" Demo.rows
           None DEFAULT_MODEL Demo.schedule Demo.results eq_refl).
Defined.

Lemma C6_wire_payload_witness :
  request_data (Demo.call (Some "France") (Some Demo.Answer))
  = request_data (Demo.call (Some "France") (Some Demo.Answer))
  ∧ dict_get "response_format"
      (request_data (Demo.call (Some "France") (Some Demo.Answer)))
    = Some (response_format_as_specified Demo.Answer)
  ∧ ∀ m, Some Demo.Answer = Some m →
      let schema := dict_set "additionalProperties" (JBool false)
                      (model_json_schema m) in
      dict_get "additionalProperties" schema = Some (JBool false)
      ∧ ∀ k, k ≠ "additionalProperties" →
             dict_get k schema = dict_get k (model_json_schema m).
Proof.
  exact (C6_wire_payload Demo.throttled_once Demo.clock 2
           [Demo.call (Some "France") (Some Demo.Answer)] [0; 0; 0] 0
           (Demo.call (Some "France") (Some Demo.Answer))
           (request_data (Demo.call (Some "France") (Some Demo.Answer)))
           eq_refl
           (or_intror (or_intror (or_intror (or_introl eq_refl))))).
Defined.

Lemma C9_nested_slots_witness :
  ∃ n, settled Demo.replies 2 n
       ∧ 0 = 0
       ∧ acquired (calls_of 2 (run Demo.replies Demo.clock Demo.schedule
                                 (start 2 Demo.batch)))
         = seq 0 (S n)
       ∧ released (calls_of 2 (run Demo.replies Demo.clock Demo.schedule
                                 (start 2 Demo.batch)))
         = reverse (seq 0 (S n)).
Proof.
  exact (C9_nested_slots Demo.replies Demo.clock 2 Demo.batch Demo.schedule 2
           {| args := call_of "Capital of" None DEFAULT_MODEL
                        {| row_text := None; row_id := None |};
              co := Done (Return (Plain (JStr "Lisbon") Demo.usage)) |}
           eq_refl).
Defined.

Lemma lone_reachable (sched : list nat) :
  let s := run (H := Demo.collaborators) Demo.throttled_once Demo.clock sched
             (start 1 [Demo.lone]) in
  ∃ c, tasks s = [{| args := Demo.lone; co := c |}]
       ∧ In (value s, c) Demo.lone_states.
Proof.
  apply (run_invariant (H := Demo.collaborators) Demo.throttled_once Demo.clock
           (λ s, ∃ c, tasks s = [{| args := Demo.lone; co := c |}]
                      ∧ In (value s, c) Demo.lone_states)).
  - intros [v ts l] i s' (c & Hts & Hin) Hstep. simpl in Hts, Hin. subst ts.
    rewrite step_lone in Hstep. destruct i as [|i]; [|done].
    unfold resume in Hstep. simpl in Hin, Hstep.
    repeat destruct Hin as [Hin|Hin]; try done;
      injection Hin as <- <-; simpl in Hstep; try done;
      injection Hstep as <-; simpl; eexists; (split; [reflexivity|]);
      simpl; tauto.
  - eexists. split; [reflexivity|]. by left.
Qed.

(** C3 on a gate of capacity 1: after the 429 the retry waits at line 66
    for the slot its own caller holds, so no schedule finishes the call;
    answered at once the same call returns, and so it does after the 429
    when a second slot is free. *)
Theorem C3_retry_blocks_on_a_full_gate (sched : list nat) :
  gather (run (H := Demo.collaborators) Demo.throttled_once Demo.clock sched
            (start 1 [Demo.lone])) = None
  ∧ gather (run (H := Demo.collaborators) Demo.answered_at_once Demo.clock
              (replicate 6 0) (start 1 [Demo.lone]))
    = Some [Return (Plain (JStr "Paris") Demo.usage)]
  ∧ gather (run (H := Demo.collaborators) Demo.throttled_once Demo.clock
              (replicate 12 0) (start 2 [Demo.lone]))
    = Some [Return (Plain (JStr "Paris") Demo.usage)].
Proof.
  split; [|split; reflexivity].
  destruct (lone_reachable sched) as (c & Hts & Hin).
  unfold gather. rewrite Hts. simpl in Hin.
  repeat destruct Hin as [Hin|Hin]; try done; by injection Hin as _ <-.
Qed.

Lemma retry_with_room_witness :
  let s := run Demo.throttled_once Demo.clock (replicate 12 0)
             (start 2 [Demo.lone]) in
  let s' := run Demo.answered_at_once Demo.clock (replicate 6 0)
              (start 2 [Demo.lone]) in
  gather s
  = Some [call_openai_chat_after Demo.lone (Demo.clock 0)
            (returned (Demo.throttled_once 0 1))]
  ∧ gather s' = gather s
  ∧ calls_of 0 s
    = attempt_calls 0 Demo.lone 0 ++ retry_calls 0 ++ attempt_calls 0 Demo.lone 1
        ++ closing_calls 0 (Demo.throttled_once 0 1) ++ [release 0 1; release 0 0]
  ∧ waits_again (calls_of 0 s) = [wait_for_availability 0 None].
Proof.
  exact (retry_with_room Demo.clock Demo.throttled_once Demo.answered_at_once
           Demo.lone 2 (le_n 2) eq_refl eq_refl eq_refl).
Defined.

Lemma batch_not_empty : Demo.batch ≠ [].
Proof. done. Qed.

Lemma deadlock_at_every_capacity_witness :
  gather (run Demo.always_throttled Demo.clock
            (parking_schedule (length Demo.batch) ++ [0; 1; 2; 2; 1; 0])
            (start (length Demo.batch) Demo.batch)) = None.
Proof.
  exact (deadlock_at_every_capacity Demo.always_throttled Demo.clock Demo.batch
           [0; 1; 2; 2; 1; 0] batch_not_empty (λ i _, eq_refl)).
Defined.

Lemma completes_when_never_throttled_witness :
  ∃ sched', is_Some (gather (run Demo.answered_at_once Demo.clock
                               ([2; 0; 0; 1] ++ sched') (start 1 Demo.batch))).
Proof.
  exact (completes_when_never_throttled Demo.answered_at_once Demo.clock 1
           (λ i n, eq_refl) Demo.batch [2; 0; 0; 1] (le_n 1)).
Defined.

(* ================================================================== *)
(** * Part VIII. Further properties of the synchronous code *)
(* ================================================================== *)

(** The role and the content of a message, and the keys of a dict. *)
Definition role_of (m : json) : option string :=
  match m with
  | JDict d => match dict_get "role" d with Some (JStr s) => Some s | _ => None end
  | _ => None
  end.

Definition has_content (m : json) : bool :=
  match m with
  | JDict d =>
      match dict_get "content" d with
      | Some (JStr s) => negb (String.eqb s "")
      | _ => false
      end
  | _ => false
  end.

Definition keys (d : dict) : list string := d.*1.

(** [k in l] for a list, [k in s] for a string, as line 100 would test
    them on a body that is not an object. *)
Definition names (k : string) (response : json) : bool :=
  match response with
  | JList l =>
      existsb (fun x => match x with JStr s => String.eqb s k | _ => false end) l
  | JStr s => str_contains k s
  | _ => false
  end.

(** The [schema] member of a [response_format]. *)
Definition wire_schema (response_format : json) : result json :=
  json_schema ← getitem response_format "json_schema";
  getitem json_schema "schema".

(** Lines 36-42: the roles are [user], or [system] then [user], and every
    message carries a non-empty content exactly when the prompt is not
    empty: an empty [text] never makes an empty message. *)
Theorem construct_messages_roles_and_contents (prompt : string)
    (text : option string) :
  omap role_of (_construct_messages prompt text)
  = match text with
    | None => ["user"]
    | Some _ => ["system"; "user"]
    end
  ∧ forallb has_content (_construct_messages prompt text)
    = negb (String.eqb prompt "").
Proof.
  destruct text as [t|]; (split; [done|]); simpl.
  - destruct (String.eqb t "") eqn:Et; simpl.
    + by destruct (String.eqb prompt "").
    + rewrite Et. simpl. by destruct (String.eqb prompt "").
  - by destruct (String.eqb prompt "").
Qed.

Lemma dict_set_keys k v d :
  keys (dict_set k v d) = if dict_mem k d then keys d else keys d ++ [k].
Proof.
  unfold keys, dict_mem. induction d as [|[k' v'] d IH]; [done|]. csimpl.
  destruct (String.eqb k k') eqn:E; csimpl.
  - apply String.eqb_eq in E. by subst.
  - rewrite IH. by destruct (dict_get k d).
Qed.

Lemma dict_mem_keys k d : dict_mem k d = true ↔ k ∈ keys d.
Proof.
  unfold keys, dict_mem. induction d as [|[k' v'] d IH]; csimpl.
  - split; [done|]. by intros ?%elem_of_nil.
  - rewrite elem_of_cons. destruct (String.eqb k k') eqn:E.
    + apply String.eqb_eq in E. split; [by left|done].
    + apply String.eqb_neq in E. rewrite IH. split; [by right|].
      by intros [?|?].
Qed.

(** Lines 49-57: in the schema that goes on the wire the key
    [additionalProperties] stands where the model's schema had it, or
    last when it had none; no other key moves, none is dropped and none
    appears twice when none did. *)
Theorem wire_schema_keys (m : pydantic_model) :
  ∃ schema,
    wire_schema (get_json_schema_from_pydantic m) = Return (JDict schema)
    ∧ keys schema
      = (if dict_mem "additionalProperties" (model_json_schema m)
         then keys (model_json_schema m)
         else keys (model_json_schema m) ++ ["additionalProperties"])
    ∧ length schema
      = (if dict_mem "additionalProperties" (model_json_schema m)
         then length (model_json_schema m)
         else S (length (model_json_schema m)))
    ∧ (NoDup (keys (model_json_schema m)) → NoDup (keys schema)).
Proof.
  eexists. split; [reflexivity|].
  pose proof (dict_set_keys "additionalProperties" (JBool false)
                (model_json_schema m)) as Hk.
  split; [done|]. split.
  - rewrite <- (length_fmap fst). fold (keys (dict_set "additionalProperties"
      (JBool false) (model_json_schema m))). rewrite Hk.
    destruct (dict_mem _ _); unfold keys;
      [by rewrite length_fmap|rewrite length_app, length_fmap; simpl; lia].
  - rewrite Hk.
    destruct (dict_mem "additionalProperties" (model_json_schema m)) eqn:E;
      [done|].
    intros Hnd. apply NoDup_app. split; [done|]. split; [|apply NoDup_singleton].
    intros k Hin ->%list_elem_of_singleton.
    apply dict_mem_keys in Hin. congruence.
Qed.

Section More_shaping.
Context `{Collaborators}.

(** Lines 106-123, on the [usage] and the content that lines 103-104
    read. *)
Definition shape (a : call_args) (now : datetime) (usage content : json)
  : result chat_result :=
  match arg_pydantic_model a with
  | None => Return (Plain content usage)
  | Some m =>
      result_json ← loads content;
      o ← new_ChatOutput m a now (request_data a) usage result_json;
      Return (Envelope o)
  end.

(** What line 100 lets through has a [usage] and a first choice with a
    message and a content; the rest of the function works on these. *)
Lemma finish_well_formed a now response usage content :
  getitem response "usage" = Return usage →
  first_content response = Return content →
  call_openai_chat_finish a now response = shape a now usage content.
Proof.
  destruct response as [| | | | | |d]; try done. simpl.
  destruct (dict_get "usage" d) as [u|] eqn:Hu; [|done]. intros [= ->] Hfc.
  destruct (first_content_dict d content Hfc)
    as (choice & rest & msg & Hc & Hmsg & Hcontent).
  unfold call_openai_chat_finish. rewrite malformed_dict, Hu, Hc. simpl.
  rewrite Hu, Hc. simpl. rewrite Hmsg. simpl. by rewrite Hcontent.
Qed.

Lemma finish_returns a now response r :
  call_openai_chat_finish a now response = Return r →
  ∃ usage content,
    getitem response "usage" = Return usage
    ∧ first_content response = Return content.
Proof.
  unfold call_openai_chat_finish, first_content.
  destruct (malformed response) as [[|]|]; simpl; try done.
  destruct (getitem response "usage") as [usage|]; simpl; [|done].
  destruct (getitem response "choices") as [choices|]; simpl; [|done].
  destruct (getitem0 choices) as [choice|]; simpl; [|done].
  destruct (getitem choice "message") as [msg|]; simpl; [|done].
  destruct (getitem msg "content") as [content|] eqn:Ec; simpl; [|done].
  intros _. by exists usage, content.
Qed.

(** Lines 100-107: without a schema the call returns the pair of the first
    choice's content and the body's [usage], as they are (neither is
    validated: a [null] content or usage goes through), exactly when the
    body has both; it never returns a [ChatOutput]. *)
Theorem schema_less_pass_through (a : call_args) (now : datetime)
    (response : json) :
  arg_pydantic_model a = None →
  (∀ content usage,
     call_openai_chat_finish a now response = Return (Plain content usage)
     ↔ getitem response "usage" = Return usage
       ∧ first_content response = Return content)
  ∧ ∀ o, call_openai_chat_finish a now response ≠ Return (Envelope o).
Proof.
  intros Hm. split.
  - intros content usage. split.
    + intros Hr. destruct (finish_returns _ _ _ _ Hr) as (u & c & Hu & Hc).
      rewrite (finish_well_formed a now response u c Hu Hc) in Hr.
      unfold shape in Hr. rewrite Hm in Hr. by injection Hr as -> ->.
    + intros [Hu Hc].
      rewrite (finish_well_formed a now response usage content) by done.
      unfold shape. by rewrite Hm.
  - intros o Hr. destruct (finish_returns _ _ _ _ Hr) as (u & c & Hu & Hc).
    rewrite (finish_well_formed a now response u c Hu Hc) in Hr.
    unfold shape in Hr. by rewrite Hm in Hr.
Qed.

(** Lines 109-123: with a schema the call never returns the bare pair; a
    [ChatOutput] comes only from a content that is a string, decodes to
    an object without the keys [id] and [gpt_tokens_used], and whose
    other members validate, with the body's [usage] validated into
    [gpt_tokens_used] and the call's [id]; a string that [json.loads]
    rejects raises JSONDecodeError, and everything else that goes wrong
    past line 104 is a TypeError or a ValidationError. *)
Theorem schema_bound_outcomes (a : call_args) (now : datetime)
    (m : pydantic_model) (response usage content : json) :
  arg_pydantic_model a = Some m →
  getitem response "usage" = Return usage →
  first_content response = Return content →
  (∀ c u, call_openai_chat_finish a now response ≠ Return (Plain c u))
  ∧ (∀ o, call_openai_chat_finish a now response = Return (Envelope o) →
       ∃ s kw,
         content = JStr s
         ∧ json_loads s = Some (JDict kw)
         ∧ dict_mem "id" kw = false
         ∧ dict_mem "gpt_tokens_used" kw = false
         ∧ pm_validate m (List.filter (fun kv => negb (is_metadata kv.1)) kw)
           = Some (fields o)
         ∧ validate_GPTTokens usage = Some (gpt_tokens_used o)
         ∧ out_id o = arg_id a)
  ∧ (∀ e, call_openai_chat_finish a now response = Raise e →
       e = TypeError ∨ e = JSONDecodeError ∨ e = ValidationError)
  ∧ (call_openai_chat_finish a now response = Raise JSONDecodeError
     ↔ ∃ s, content = JStr s ∧ json_loads s = None).
Proof.
  intros Hm Hu Hc.
  rewrite (finish_well_formed a now response usage content Hu Hc).
  unfold shape. rewrite Hm. unfold loads, new_ChatOutput.
  assert (∀ X, X ≠ JSONDecodeError →
            (∀ s, content = JStr s → json_loads s ≠ None) →
            (∀ c u, @Raise chat_result X ≠ Return (Plain c u))
            ∧ (∀ o, @Raise chat_result X = Return (Envelope o) →
                 ∃ s kw,
                   content = JStr s
                   ∧ json_loads s = Some (JDict kw)
                   ∧ dict_mem "id" kw = false
                   ∧ dict_mem "gpt_tokens_used" kw = false
                   ∧ pm_validate m
                       (List.filter (fun kv => negb (is_metadata kv.1)) kw)
                     = Some (fields o)
                   ∧ validate_GPTTokens usage = Some (gpt_tokens_used o)
                   ∧ out_id o = arg_id a)
            ∧ (∀ e, @Raise chat_result X = Raise e →
                 X = TypeError ∨ X = ValidationError →
                 e = TypeError ∨ e = JSONDecodeError ∨ e = ValidationError)
            ∧ (@Raise chat_result X = Raise JSONDecodeError
               ↔ ∃ s, content = JStr s ∧ json_loads s = None)) as Hraised.
  { intros X HX Hloads. split; [done|]. split; [done|]. split.
    - intros e [= <-] [->| ->]; auto.
    - split; [intros [= ->]; done|].
      intros (s & Hs & Hnone). by apply Hloads in Hs. }
  assert (∀ X, X = TypeError ∨ X = ValidationError →
            (∀ s, content = JStr s → json_loads s ≠ None) →
            (∀ c u, @Raise chat_result X ≠ Return (Plain c u))
            ∧ (∀ o, @Raise chat_result X = Return (Envelope o) →
                 ∃ s kw,
                   content = JStr s
                   ∧ json_loads s = Some (JDict kw)
                   ∧ dict_mem "id" kw = false
                   ∧ dict_mem "gpt_tokens_used" kw = false
                   ∧ pm_validate m
                       (List.filter (fun kv => negb (is_metadata kv.1)) kw)
                     = Some (fields o)
                   ∧ validate_GPTTokens usage = Some (gpt_tokens_used o)
                   ∧ out_id o = arg_id a)
            ∧ (∀ e, @Raise chat_result X = Raise e →
                 e = TypeError ∨ e = JSONDecodeError ∨ e = ValidationError)
            ∧ (@Raise chat_result X = Raise JSONDecodeError
               ↔ ∃ s, content = JStr s ∧ json_loads s = None)) as Hfails.
  { intros X HX Hloads.
    destruct (Hraised X) as (H1 & H2 & H3 & H4);
      [by destruct HX as [->| ->]|done|].
    repeat split; try done; try apply H4. intros e He. by apply H3. }
  clear Hraised.
  destruct content as [| | | |s| |]; simpl;
    try (apply Hfails; [by left|done]).
  destruct (json_loads s) as [rj|] eqn:Hl; simpl.
  2:{ split; [done|]. split; [done|]. split; [intros e [= <-]; auto|].
      split; [|done]. intros _. by exists s. }
  assert (∀ s', JStr s = JStr s' → json_loads s' ≠ None) as Hloads.
  { intros s' [= <-]. by rewrite Hl. }
  destruct rj as [| | | | | |kw]; simpl;
    try (apply Hfails; [by left|done]).
  destruct (dict_mem "id" kw) eqn:Hid; simpl;
    [apply Hfails; [by left|done]|].
  destruct (dict_mem "gpt_tokens_used" kw) eqn:Htok; simpl;
    [apply Hfails; [by left|done]|].
  destruct (pm_validate m _) as [fs|] eqn:Hv; simpl;
    [|apply Hfails; [by right|done]].
  destruct (datetime_field kw _ now) as [called|]; simpl;
    [|apply Hfails; [by right|done]].
  destruct (validate_GPTTokens usage) as [tokens|]; simpl;
    [|apply Hfails; [by right|done]].
  destruct (str_field kw "gpt_raw_input" _) as [raw|]; simpl;
    [|apply Hfails; [by right|done]].
  destruct (str_field kw "gpt_model" _) as [model|]; simpl;
    [|apply Hfails; [by right|done]].
  split; [done|]. split; [|split; [done|]].
  - intros o [= <-]. by exists s, kw.
  - split; [done|]. intros (s' & Hs' & Hnone). by apply Hloads in Hs'.
Qed.

(** Line 100 on a body that is not an object: [null], a boolean or a
    number raises TypeError at the first [in]; a list or a string raises
    BadResponseException unless it names both [usage] and [choices] (as
    an element, as a substring), and then TypeError at
    [response["choices"]]; nothing is ever returned. *)
Theorem non_object_body (a : call_args) (now : datetime) (response : json) :
  match response with
  | JDict _ => True
  | JList _ | JStr _ =>
      call_openai_chat_finish a now response
      = if names "usage" response && names "choices" response
        then Raise TypeError
        else Raise (BadResponseException response)
  | _ => call_openai_chat_finish a now response = Raise TypeError
  end.
Proof.
  destruct response as [| | | |s|l|d]; try done;
    unfold call_openai_chat_finish, malformed, py_in, names; simpl.
  - destruct (str_contains "usage" s); simpl; [|done].
    by destruct (str_contains "choices" s).
  - destruct (existsb _ l); simpl; [|done]. by destruct (existsb _ l).
Qed.

(** Lines 111-123: on the record a schema-bound call returns,
    [gpt_model] is the model that was requested, read back from the
    request body, and [gpt_called_at] is the clock reading of line 117,
    unless the decoded content has a member of that name: it is passed
    to [ChatOutput] as a keyword argument like the caller's own fields,
    so a string under [gpt_model] replaces the model's name (anything
    else fails validation) and whatever validates as a datetime under
    [gpt_called_at] replaces the time. *)
Theorem stamped_metadata (a : call_args) (now : datetime) (response : json)
    (o : ChatOutput) :
  call_openai_chat_finish a now response = Return (Envelope o) →
  ∃ s kw,
    first_content response = Return (JStr s)
    ∧ json_loads s = Some (JDict kw)
    ∧ match dict_get "gpt_model" kw with
      | None => gpt_model o = arg_gpt_model a
      | Some g => g = JStr (gpt_model o)
      end
    ∧ match dict_get "gpt_called_at" kw with
      | None => gpt_called_at o = now
      | Some v => validate_datetime v = Some (gpt_called_at o)
      end.
Proof.
  intros Hr.
  destruct (finish_returns _ _ _ _ Hr) as (usage & content & Hu & Hc).
  rewrite (finish_well_formed a now response usage content Hu Hc) in Hr.
  unfold shape in Hr. destruct (arg_pydantic_model a) as [m|]; [|done].
  unfold loads in Hr. destruct content as [| | | |s| |]; try done.
  simpl in Hr. destruct (json_loads s) as [rj|] eqn:Hl; [|done].
  simpl in Hr. unfold new_ChatOutput in Hr.
  destruct rj as [| | | | | |kw]; try done.
  exists s, kw. split; [done|]. split; [done|].
  destruct (_ || _); [done|].
  destruct (pm_validate m _); simpl in Hr; [|done].
  unfold datetime_field, str_field in Hr.
  destruct (dict_get "gpt_called_at" kw) as [v|].
  - destruct (validate_datetime v) as [called|]; simpl in Hr; [|done].
    destruct (validate_GPTTokens usage); simpl in Hr; [|done].
    destruct (dict_get "gpt_raw_input" kw) as [[| | | |raw| |]|];
      simpl in Hr; try done;
      destruct (dict_get "gpt_model" kw) as [[| | | |gm| |]|];
      simpl in Hr; try done; injection Hr as <-; simpl;
      by rewrite ?request_data_model.
  - simpl in Hr.
    destruct (validate_GPTTokens usage); simpl in Hr; [|done].
    destruct (dict_get "gpt_raw_input" kw) as [[| | | |raw| |]|];
      simpl in Hr; try done;
      destruct (dict_get "gpt_model" kw) as [[| | | |gm| |]|];
      simpl in Hr; try done; injection Hr as <-; simpl;
      by rewrite ?request_data_model.
Qed.

End More_shaping.

(* ================================================================== *)
(** * Part IX. Further properties of the coroutines *)
(* ================================================================== *)

(** The calls by what they are, whoever makes them. *)
Inductive kind :=
| Configure | WaitUnits | WaitAgain | Acquire | Post | Warn | Update | Release.

#[global] Instance kind_eq_dec : EqDecision kind.
Proof. solve_decision. Defined.

Definition kind_of (e : event) : kind :=
  match e with
  | set_rate_limiter _ _ => Configure
  | wait_for_availability _ (Some _) => WaitUnits
  | wait_for_availability _ None => WaitAgain
  | acquire _ _ => Acquire
  | post _ _ => Post
  | warning _ => Warn
  | update_from_headers _ _ => Update
  | release _ _ => Release
  end.

Definition of_kind (k : kind) (l : list event) : list event :=
  List.filter (fun e => bool_decide (kind_of e = k)) l.

Definition occurrences (k : kind) (l : list event) : nat := length (of_kind k l).

(** The reply was a success for [raise_for_status]: a status below 400. *)
Definition succeeded (r : reply) : bool :=
  match r with
  | Answered res => negb (400 <=? status res)%Z
  | Refused _ => false
  end.

(** How often a kind of call occurs in one attempt up to the request,
    and between a 429 and the next attempt. *)
Definition per_attempt (k : kind) : nat :=
  match k with
  | WaitUnits | Acquire | Post => 1
  | _ => 0
  end.

Definition per_retry (k : kind) : nat :=
  match k with
  | Warn | WaitAgain => 1
  | _ => 0
  end.

(** The tasks one after the other, each resumed [6 * n_jobs] times in a
    row. *)
Definition one_at_a_time (n_jobs len : nat) : list nat :=
  flat_map (fun i => replicate (6 * n_jobs) i) (seq 0 len).

Section More_machine.
Context `{Collaborators}.
Variable transport : nat → nat → reply.
Variable clock : nat → datetime.
Variable n_jobs : nat.

(** ** What a task can call *)

Section Alphabet.
Variable i : nat.
Variable a : call_args.
Variable P : event → Prop.
Hypothesis P_wait : P (wait_for_availability i (Some (required_tokens a))).
Hypothesis P_acquire : ∀ k, P (acquire i k).
Hypothesis P_post : P (post i (request_data a)).
Hypothesis P_warning : P (warning i).
Hypothesis P_again : P (wait_for_availability i None).
Hypothesis P_update : ∀ h, P (update_from_headers i h).
Hypothesis P_release : ∀ k, P (release i k).

Lemma attempt_events level : Forall P (attempt_calls i a level).
Proof. unfold attempt_calls. repeat constructor; auto. Qed.

Lemma throttled_events n : Forall P (throttled_calls i a n).
Proof.
  induction n as [|n IH]; [constructor|].
  rewrite throttled_calls_S, !Forall_app.
  split; [done|]. split; [apply attempt_events|].
  unfold retry_calls. repeat constructor; auto.
Qed.

Lemma settled_events n f : Forall P (settled_calls transport i a n f).
Proof.
  unfold settled_calls. rewrite !Forall_app.
  split; [apply throttled_events|]. split; [apply attempt_events|]. split.
  - unfold closing_calls. destruct (transport i n) as [res|]; [|constructor].
    destruct (400 <=? status res)%Z; repeat constructor; auto.
  - unfold release_calls. apply Forall_fmap, Forall_true. intros k. apply P_release.
Qed.

End Alphabet.

(** Whatever a coherent task has called is a wait with its own estimate,
    an [acquire] or a [release] of its own, a post of its own body, a
    warning, a wait without units or a feedback of headers. *)
Lemma coherent_events i t l (P : event → Prop) :
  coherent transport clock i t l →
  P (wait_for_availability i (Some (required_tokens (args t)))) →
  (∀ k, P (acquire i k)) →
  P (post i (request_data (args t))) →
  P (warning i) →
  P (wait_for_availability i None) →
  (∀ h, P (update_from_headers i h)) →
  (∀ k, P (release i k)) →
  Forall P l.
Proof.
  intros Hco Pw Pa Pp Pwarn Pagain Pu Pr. unfold coherent in Hco.
  destruct (co t) as [p n f|f r|o].
  - destruct Hco as [_ Hp]. destruct p.
    + destruct Hp as [_ ->]. by apply throttled_events.
    + destruct Hp as [_ ->]. rewrite Forall_app.
      split; [by apply throttled_events|]. repeat constructor; auto.
    + destruct Hp as [_ ->]. rewrite Forall_app.
      split; [by apply throttled_events|]. repeat constructor; auto.
    + destruct Hp as [_ ->]. rewrite Forall_app.
      split; [by apply throttled_events|by apply attempt_events].
    + destruct Hp as (n' & _ & _ & ->). rewrite !Forall_app.
      split; [by apply throttled_events|].
      split; [by apply attempt_events|]. repeat constructor; auto.
  - destruct Hco as (n & _ & _ & _ & ->). by apply settled_events.
  - destruct Hco as (n & _ & _ & ->). by apply settled_events.
Qed.

(** Lines 90-98 and 65: every wait with units that task [i] asks of the
    rate limiter names the estimate of the very messages and model that
    its request body carries, on the first attempt and on every retry. *)
Theorem limiter_units_match_body (calls : list call_args) (sched : list nat)
    (i : nat) (a : call_args) (units : Z) :
  calls !! i = Some a →
  In (wait_for_availability i (Some units))
     (log (run transport clock sched (start n_jobs calls))) →
  ∃ messages model,
    dict_get "messages" (request_data a) = Some (JList messages)
    ∧ dict_get "model" (request_data a) = Some (JStr model)
    ∧ units = count_tokens messages model.
Proof.
  intros Ha Hin.
  destruct (reachable_task transport clock n_jobs calls sched i a Ha)
    as (t & Ht & <-).
  destruct (reachable_invariant transport clock n_jobs calls sched)
    as (_ & _ & Hco).
  pose proof (coherent_events i t _
                (λ e, match e with
                      | wait_for_availability _ (Some u) =>
                          u = required_tokens (args t)
                      | _ => True
                      end) (Hco i t Ht)) as Hall.
  rewrite List.Forall_forall in Hall.
  specialize (Hall eq_refl (λ _, I) I I I (λ _, I) (λ _, I)
                (wait_for_availability i (Some units))).
  simpl in Hall. unfold calls_of in Hall. rewrite List.filter_In in Hall.
  simpl in Hall. rewrite Nat.eqb_refl in Hall.
  specialize (Hall (conj Hin eq_refl)). subst units.
  exists (_construct_messages (arg_prompt (args t)) (arg_text (args t))),
    (arg_gpt_model (args t)).
  unfold request_data. by destruct (arg_pydantic_model (args t)).
Qed.

(** ** Counting the calls of a task *)

Lemma occurrences_app k l1 l2 :
  occurrences k (l1 ++ l2) = occurrences k l1 + occurrences k l2.
Proof. unfold occurrences, of_kind. by rewrite List.filter_app, length_app. Qed.

Lemma occurrences_attempt k i a level :
  occurrences k (attempt_calls i a level) = per_attempt k.
Proof. by destruct k. Qed.

Lemma occurrences_retry k i : occurrences k (retry_calls i) = per_retry k.
Proof. by destruct k. Qed.

Lemma occurrences_throttled k i a n :
  occurrences k (throttled_calls i a n) = n * (per_attempt k + per_retry k).
Proof.
  induction n as [|n IH]; [done|].
  rewrite throttled_calls_S, !occurrences_app, IH, occurrences_attempt,
    occurrences_retry.
  lia.
Qed.

Lemma occurrences_closing k i r :
  occurrences k (closing_calls i r)
  = if bool_decide (k = Update) && succeeded r then 1 else 0.
Proof.
  destruct r as [res|]; simpl; [|by destruct k].
  destruct (400 <=? status res)%Z; by destruct k.
Qed.

Lemma occurrences_release k i lo hi :
  occurrences k (release_calls i lo hi)
  = if bool_decide (k = Release) then hi - lo else 0.
Proof.
  unfold release_calls.
  assert (∀ l, occurrences k (release i <$> l)
               = if bool_decide (k = Release) then length l else 0) as Hl.
  { induction l as [|x l IH]; [by destruct k|].
    unfold occurrences, of_kind in *. csimpl.
    destruct k; simpl in *; try done. by rewrite IH. }
  by rewrite Hl, length_reverse, length_seq.
Qed.

Lemma occurrences_settled k i a n f :
  f ≤ S n →
  occurrences k (settled_calls transport i a n f)
  = n * (per_attempt k + per_retry k) + per_attempt k
    + (if bool_decide (k = Update) && succeeded (transport i n) then 1 else 0)
    + (if bool_decide (k = Release) then S n - f else 0).
Proof.
  intros Hf. unfold settled_calls.
  rewrite !occurrences_app, occurrences_throttled, occurrences_attempt,
    occurrences_closing, occurrences_release.
  lia.
Qed.

(** What a task has called so far, kind by kind. *)
Lemma coherent_occurrences i t l k :
  coherent transport clock i t l →
  match co t with
  | Run p n f =>
      occurrences k l
      = n * (per_attempt k + per_retry k)
        + match p, k with
          | AtGate, WaitUnits => 1
          | AtPost, (WaitUnits | Acquire) => 1
          | InFlight, (WaitUnits | Acquire | Post) => 1
          | AtRetryWait, WaitAgain => 0
          | _, _ => 0
          end
        - match p, k with AtRetryWait, WaitAgain => 1 | _, _ => 0 end
  | Unwind f r =>
      ∃ n, settled transport i n ∧ f ≤ S n
           ∧ occurrences k l
             = n * (per_attempt k + per_retry k) + per_attempt k
               + (if bool_decide (k = Update) && succeeded (transport i n)
                  then 1 else 0)
               + (if bool_decide (k = Release) then S n - f else 0)
  | Done o =>
      ∃ n, settled transport i n
           ∧ occurrences k l
             = n * (per_attempt k + per_retry k) + per_attempt k
               + (if bool_decide (k = Update) && succeeded (transport i n)
                  then 1 else 0)
               + (if bool_decide (k = Release) then S n else 0)
  end.
Proof.
  unfold coherent. destruct (co t) as [p n f|f r|o].
  - intros [_ Hp]. destruct p.
    + destruct Hp as [_ ->]. rewrite occurrences_throttled. by destruct k; lia.
    + destruct Hp as [_ ->]. rewrite occurrences_app, occurrences_throttled.
      destruct k; unfold occurrences, of_kind; simpl; lia.
    + destruct Hp as [_ ->]. rewrite occurrences_app, occurrences_throttled.
      destruct k; unfold occurrences, of_kind; simpl; lia.
    + destruct Hp as [_ ->].
      rewrite occurrences_app, occurrences_throttled, occurrences_attempt.
      destruct k; simpl; lia.
    + destruct Hp as (n' & -> & _ & ->).
      rewrite !occurrences_app, occurrences_throttled, occurrences_attempt.
      destruct k; unfold occurrences, of_kind; simpl; lia.
  - intros (n & Hn & _ & Hf & ->). exists n. split; [done|]. split; [done|].
    by apply occurrences_settled.
  - intros (n & Hn & _ & ->). exists n. split; [done|].
    rewrite occurrences_settled by lia. by replace (S n - 0) with (S n) by lia.
Qed.

(** Lines 65-68 and 74-76, at every point of every schedule: a task has
    posted no more requests than it has entered the semaphore, entered it
    no more often than it has waited for its units, and waited for them
    at most once more than it has posted; it has waited again at line 75
    no more often than it was warned, and was warned at most once per
    request; it has left the semaphore no more often than it entered it,
    and fed headers back at most once. *)
Theorem calls_stay_in_order (calls : list call_args) (sched : list nat)
    (i : nat) (a : call_args) :
  calls !! i = Some a →
  let l := calls_of i (run transport clock sched (start n_jobs calls)) in
  occurrences Post l ≤ occurrences Acquire l
  ∧ occurrences Acquire l ≤ occurrences WaitUnits l
  ∧ occurrences WaitUnits l ≤ S (occurrences Post l)
  ∧ occurrences WaitAgain l ≤ occurrences Warn l
  ∧ occurrences Warn l ≤ S (occurrences WaitAgain l)
  ∧ occurrences Warn l ≤ occurrences Post l
  ∧ occurrences Post l ≤ S (occurrences Warn l)
  ∧ occurrences Release l ≤ occurrences Acquire l
  ∧ occurrences Update l ≤ 1
  ∧ occurrences Configure l = 0.
Proof.
  intros Ha l.
  destruct (reachable_task transport clock n_jobs calls sched i a Ha)
    as (t & Ht & _).
  destruct (reachable_invariant transport clock n_jobs calls sched)
    as (_ & _ & Hco).
  specialize (Hco i t Ht). fold l in Hco.
  pose proof (λ k, coherent_occurrences i t l k Hco) as Hocc.
  pose proof (Hocc Post) as HPost. pose proof (Hocc Acquire) as HAcquire.
  pose proof (Hocc WaitUnits) as HUnits. pose proof (Hocc WaitAgain) as HAgain.
  pose proof (Hocc Warn) as HWarn. pose proof (Hocc Release) as HRelease.
  pose proof (Hocc Update) as HUpdate. pose proof (Hocc Configure) as HConf.
  clear Hocc. unfold coherent in Hco.
  destruct (co t) as [p n f|f r|o].
  - destruct Hco as [_ Hp].
    destruct p; simpl in *;
      try (destruct Hp as (n' & -> & _)); lia.
  - destruct HPost as (n & Hn & Hf & ->), HAcquire as (n1 & Hn1 & _ & ->),
      HUnits as (n2 & Hn2 & _ & ->), HAgain as (n3 & Hn3 & _ & ->),
      HWarn as (n4 & Hn4 & _ & ->), HRelease as (n5 & Hn5 & _ & ->),
      HUpdate as (n6 & Hn6 & _ & ->), HConf as (n7 & Hn7 & _ & ->).
    rewrite <- (settled_unique transport i n n1), <- (settled_unique transport i n n2),
      <- (settled_unique transport i n n3), <- (settled_unique transport i n n4),
      <- (settled_unique transport i n n5), <- (settled_unique transport i n n6),
      <- (settled_unique transport i n n7) by done.
    simpl. destruct (succeeded (transport i n)); lia.
  - destruct HPost as (n & Hn & ->), HAcquire as (n1 & Hn1 & ->),
      HUnits as (n2 & Hn2 & ->), HAgain as (n3 & Hn3 & ->),
      HWarn as (n4 & Hn4 & ->), HRelease as (n5 & Hn5 & ->),
      HUpdate as (n6 & Hn6 & ->), HConf as (n7 & Hn7 & ->).
    rewrite <- (settled_unique transport i n n1), <- (settled_unique transport i n n2),
      <- (settled_unique transport i n n3), <- (settled_unique transport i n n4),
      <- (settled_unique transport i n n5), <- (settled_unique transport i n n6),
      <- (settled_unique transport i n n7) by done.
    simpl. destruct (succeeded (transport i n)); lia.
Qed.

(** Lines 64-84 once the batch has returned: a task whose [n]-th reply
    settled it sent [n+1] requests, one per reply, each after one wait
    for its units and one [acquire]; it was warned and waited again [n]
    times, once per 429; it left the semaphore [n+1] times; and it fed
    the headers back once if the settling reply was below 400, never
    otherwise.  A failure other than a 429 is therefore never retried. *)
Theorem calls_when_finished (calls : list call_args) (sched : list nat)
    (rs : list (result chat_result)) (i : nat) (a : call_args) :
  gather (run transport clock sched (start n_jobs calls)) = Some rs →
  calls !! i = Some a →
  let l := calls_of i (run transport clock sched (start n_jobs calls)) in
  ∃ n, settled transport i n
       ∧ occurrences Post l = S n
       ∧ occurrences WaitUnits l = S n
       ∧ occurrences Acquire l = S n
       ∧ occurrences Release l = S n
       ∧ occurrences Warn l = n
       ∧ occurrences WaitAgain l = n
       ∧ occurrences Update l = (if succeeded (transport i n) then 1 else 0)
       ∧ (throttled (transport i 0) = false → occurrences Post l = 1).
Proof.
  intros Hg Ha l.
  destruct (reachable_task transport clock n_jobs calls sched i a Ha)
    as (t & Ht & _).
  destruct (reachable_invariant transport clock n_jobs calls sched)
    as (_ & _ & Hco).
  specialize (Hco i t Ht). fold l in Hco.
  apply mapM_Some in Hg.
  destruct (Forall2_lookup_l _ _ _ _ _ Hg Ht) as (o & _ & Ho).
  unfold outcome in Ho.
  pose proof (λ k, coherent_occurrences i t l k Hco) as Hocc.
  destruct (co t) as [| |o'] eqn:Hcot; try done.
  destruct (Hocc Post) as (n & Hn & HPost). exists n. split; [done|].
  assert (∀ k, occurrences k l
               = n * (per_attempt k + per_retry k) + per_attempt k
                 + (if bool_decide (k = Update) && succeeded (transport i n)
                    then 1 else 0)
                 + (if bool_decide (k = Release) then S n else 0)) as Hk.
  { intros k. destruct (Hocc k) as (n' & Hn' & ->).
    by rewrite (settled_unique transport i n n'). }
  rewrite !Hk. simpl.
  repeat split; try lia; try (destruct (succeeded (transport i n)); lia).
  intros H0. destruct n as [|n]; [lia|].
  destruct Hn as [Hlt _]. specialize (Hlt 0 ltac:(lia)). congruence.
Qed.

(** ** The semaphore counter and the log *)

Lemma resume_counter i t v c v' evs :
  resume transport clock i t v = Some (c, v', evs) →
  v' + length (acquired evs) = v + length (released evs).
Proof.
  unfold resume, on_response.
  destruct (co t) as [[] n f|[|f] r|o]; try (intros [= <- <- <-]; simpl; lia);
    try done.
  - destruct v; [done|]. intros [= <- <- <-]. simpl. lia.
  - destruct (transport i n) as [res|e]; [|by intros [= <- <- <-]].
    destruct (400 <=? status res)%Z; [destruct (status res =? 429)%Z|];
      by intros [= <- <- <-].
Qed.

Lemma sum_list_lookup_le {A} (f : A → nat) (l : list A) i x :
  l !! i = Some x → f x ≤ sum_list (f <$> l).
Proof.
  revert i. induction l as [|z l IH]; intros [|i]; simpl; try done.
  - intros [= ->]. lia.
  - intros Hi. specialize (IH i Hi). unfold fmap in IH. lia.
Qed.

Lemma sum_list_zero {A} (f : A → nat) (l : list A) :
  (∀ i x, l !! i = Some x → f x = 0) → sum_list (f <$> l) = 0.
Proof.
  induction l as [|z l IH]; intros Hz; simpl; [done|].
  rewrite (Hz 0 z eq_refl). apply IH. intros i x Hi. by apply (Hz (S i)).
Qed.

Lemma gather_done s rs i t :
  gather s = Some rs → tasks s !! i = Some t → ∃ o, co t = Done o.
Proof.
  intros Hg%mapM_Some Ht.
  destruct (Forall2_lookup_l _ _ _ _ _ Hg Ht) as (o & _ & Ho).
  unfold outcome in Ho. destruct (co t); try done. by eexists.
Qed.

Lemma finished_is_final s rs sched :
  gather s = Some rs → run transport clock sched s = s.
Proof.
  intros Hg. induction sched as [|i sched IH]; [done|].
  rewrite run_cons. replace (turn transport clock s i) with s; [done|].
  unfold turn, step. destruct (tasks s !! i) as [t|] eqn:Ht; [|done].
  destruct (gather_done s rs i t Hg Ht) as [o Ho]. simpl.
  unfold resume. by rewrite Ho.
Qed.

Lemma counter_accounts calls sched :
  let s := run transport clock sched (start n_jobs calls) in
  value s + length (acquired (log s)) = n_jobs + length (released (log s)).
Proof.
  apply (run_invariant transport clock
           (λ s, value s + length (acquired (log s))
                 = n_jobs + length (released (log s)))); [|simpl; lia].
  intros s0 i s' Hs (t & c & v & evs & _ & Hr & ->)%step_inv. simpl.
  apply resume_counter in Hr.
  rewrite acquired_app, released_app, !length_app. lia.
Qed.

(** Lines 66 and 84, at every point of every schedule: the counter of
    the semaphore is its capacity, less the [async with] blocks entered,
    plus the blocks left; no more blocks were left than entered, the
    blocks still open are the slots the tasks hold, and at most [n_jobs]
    are open at once. *)
Theorem semaphore_accounting (calls : list call_args) (sched : list nat) :
  let s := run transport clock sched (start n_jobs calls) in
  value s + length (acquired (log s)) = n_jobs + length (released (log s))
  ∧ length (released (log s)) ≤ length (acquired (log s))
  ∧ length (acquired (log s)) - length (released (log s)) = slots_held s
  ∧ slots_held s ≤ n_jobs.
Proof.
  intros s. pose proof (counter_accounts calls sched) as Hcount.
  destruct (reachable_invariant transport clock n_jobs calls sched)
    as (Hslots & _ & _).
  simpl in Hcount. fold s in Hslots, Hcount. lia.
Qed.

(** Lines 64-84 and 141: when [gather] returns, every slot of the
    semaphore is back: the counter is [n_jobs] again and every
    [async with] block entered was left.  From then on no task makes
    another call, however long the loop goes on. *)
Theorem slots_returned_when_batch_returns (calls : list call_args)
    (sched : list nat) (rs : list (result chat_result)) :
  gather (run transport clock sched (start n_jobs calls)) = Some rs →
  let s := run transport clock sched (start n_jobs calls) in
  value s = n_jobs
  ∧ length (acquired (log s)) = length (released (log s))
  ∧ ∀ more, run transport clock (sched ++ more) (start n_jobs calls) = s.
Proof.
  intros Hg s. pose proof (counter_accounts calls sched) as Hcount.
  destruct (reachable_invariant transport clock n_jobs calls sched)
    as (Hslots & _ & _).
  simpl in Hcount. fold s in Hslots, Hg, Hcount.
  assert (slots_held s = 0) as Hheld.
  { apply sum_list_zero. intros i t Ht.
    destruct (gather_done s rs i t Hg Ht) as [o Ho].
    unfold held. by rewrite Ho. }
  split; [lia|]. split; [lia|].
  intros more. rewrite run_app. by apply (finished_is_final s rs).
Qed.

(** Lines 125-151 on an empty [input_data]: the rate limiter is
    configured, no task is created, and [gather] returns at once with no
    outcome, whatever the schedule; nothing is sent.  Without a schema
    the caller gets the empty list, with one whatever
    [split_valid_and_invalid_records] makes of it. *)
Theorem empty_batch (Partition : Type)
    (split : list (result chat_result) → pydantic_model → Partition)
    (sched : list nat) (prompt : string)
    (pydantic_model : option pydantic_model) (gpt_model : string) :
  async_call_open_ai_chat transport clock n_jobs Partition split sched prompt
    [] pydantic_model gpt_model
  = Some match pydantic_model with
         | None => Outcomes Partition []
         | Some m => Partitioned Partition (split [] m)
         end
  ∧ log (run transport clock sched (start n_jobs []))
    = [set_rate_limiter MAX_REQUESTS_PER_MIN MAX_TOKENS_PER_MIN].
Proof.
  assert (run transport clock sched (start n_jobs []) = start n_jobs [])
    as Hrun by (by apply (finished_is_final _ [])).
  unfold async_call_open_ai_chat. csimpl. by rewrite Hrun.
Qed.

(** ** The rate limiter is configured once *)

Lemma resume_by_task i t v c v' evs :
  resume transport clock i t v = Some (c, v', evs) →
  Forall (λ e, by_task i e = true) evs.
Proof.
  intros Hr. pose proof (resume_calls transport clock i t v c v' evs i Hr) as Hf.
  rewrite Nat.eqb_refl in Hf. apply List.Forall_forall. intros e He.
  rewrite <- Hf in He. by apply List.filter_In in He as [_ He].
Qed.

(** Lines 128 and 64-84: the log of a batch opens with the one call
    that configures the rate limiter, with 10 000 requests and
    10 000 000 tokens a minute, and every call after it is made by one
    of the tasks of the batch: the limiter is never configured again
    and no call is made on behalf of a row that is not there. *)
Theorem limiter_configured_once (calls : list call_args) (sched : list nat) :
  ∃ rest,
    log (run transport clock sched (start n_jobs calls))
    = set_rate_limiter 10000 10000000 :: rest
    ∧ Forall (λ e, ∃ i, i < length calls ∧ by_task i e = true) rest.
Proof.
  destruct (reachable_invariant transport clock n_jobs calls sched)
    as (_ & Hargs & _).
  assert (∃ rest,
    log (run transport clock sched (start n_jobs calls))
    = set_rate_limiter 10000 10000000 :: rest
    ∧ Forall (λ e, ∃ i, i < length (tasks (run transport clock sched
                                                (start n_jobs calls)))
                        ∧ by_task i e = true) rest) as (rest & Hlog & Hrest).
  { apply (run_invariant transport clock
             (λ s, ∃ rest, log s = set_rate_limiter 10000 10000000 :: rest
                   ∧ Forall (λ e, ∃ i, i < length (tasks s)
                                       ∧ by_task i e = true) rest)).
    - intros s i s' (rest & Hlog & Hrest)
        (t & c & v & evs & Ht & Hr & ->)%step_inv.
      simpl. exists (rest ++ evs). rewrite Hlog. split; [done|].
      rewrite length_insert. apply Forall_app. split; [done|].
      eapply Forall_impl; [by eapply resume_by_task|].
      intros e He. exists i. split; [|done]. by eapply lookup_lt_Some.
    - exists []. by split. }
  exists rest. split; [done|].
  by rewrite <- Hargs, length_fmap.
Qed.

(** ** A call that is throttled as often as the semaphore has slots *)

Lemma stays_running (calls : list call_args) (i : nat) (a : call_args) :
  calls !! i = Some a →
  (∀ m, m < n_jobs → throttled (transport i m) = true) →
  ∀ sched, ∃ t p n f,
    tasks (run transport clock sched (start n_jobs calls)) !! i = Some t
    ∧ co t = Run p n f.
Proof.
  intros Ha Hthr sched.
  cut (invariant transport clock n_jobs calls
         (run transport clock sched (start n_jobs calls))
       ∧ ∃ t p n f,
           tasks (run transport clock sched (start n_jobs calls)) !! i = Some t
           ∧ co t = Run p n f); [by intros [_ ?]|].
  apply (run_invariant transport clock
           (λ s, invariant transport clock n_jobs calls s
                 ∧ ∃ t p n f, tasks s !! i = Some t ∧ co t = Run p n f)).
  - intros s j s' [Hinv (t & p & n & f & Ht & Hco)] Hstep.
    split; [by eapply step_invariant|].
    apply step_inv in Hstep as (t0 & c & v & evs & Ht0 & Hr & ->). simpl.
    destruct (decide (j = i)) as [->|Hne];
      [|rewrite list_lookup_insert_ne by done; eauto 10].
    rewrite Ht in Ht0. injection Ht0 as <-.
    rewrite list_lookup_insert_eq by (by eapply lookup_lt_Some).
    destruct Hinv as (Hslots & _ & Hcoh). specialize (Hcoh i t Ht).
    pose proof (sum_list_lookup_le held (tasks s) i t Ht) as Hheld.
    fold (slots_held s) in Hheld. unfold coherent in Hcoh.
    unfold held in Hheld. rewrite Hco in Hcoh, Hheld.
    generalize dependent (slots_held s). intros total Hslots Hheld.
    destruct t as [a0 c0]. simpl in *. subst c0.
    destruct p.
    + injection Hr as <- _ _. eauto 10.
    + unfold resume in Hr. simpl in Hr. destruct (value s); [done|].
      injection Hr as <- _ _. eauto 10.
    + injection Hr as <- _ _. eauto 10.
    + destruct Hcoh as [_ [-> _]].
      rewrite resume_throttled in Hr by (apply Hthr; lia).
      injection Hr as <- _ _. eauto 10.
    + injection Hr as <- _ _. eauto 10.
  - split; [apply start_invariant|].
    simpl. rewrite list_lookup_fmap, Ha. simpl. eauto 10.
Qed.

(** Lines 66 and 72-76: a call whose first [n_jobs] replies are all 429
    never finishes, so the batch it is part of never returns, whatever
    the order in which the tasks are resumed and whatever the other calls
    get: each 429 keeps one more slot of the semaphore, and the retry
    after the [n_jobs]-th finds none left. *)
Theorem never_returns_when_throttled_to_capacity (calls : list call_args)
    (sched : list nat) (i : nat) (a : call_args) :
  calls !! i = Some a →
  (∀ m, m < n_jobs → throttled (transport i m) = true) →
  gather (run transport clock sched (start n_jobs calls)) = None.
Proof.
  intros Ha Hthr.
  destruct (stays_running calls i a Ha Hthr sched) as (t & p & n & f & Ht & Hco).
  destruct (gather _) as [rs|] eqn:Hg; [|done].
  destruct (gather_done _ rs i t Hg Ht) as [o Ho]. congruence.
Qed.

(** ** One call at a time *)

(** The resumptions a task still needs when its [k]-th reply is the
    first that is not a 429. *)
Definition resumptions_left (k : nat) (t : task) : nat :=
  match co t with
  | Run AtWait n _ => 5 * (k - n) + k + 6
  | Run AtGate n _ => 5 * (k - n) + k + 5
  | Run AtPost n _ => 5 * (k - n) + k + 4
  | Run InFlight n _ => 5 * (k - n) + k + 3
  | Run AtRetryWait n _ => 5 * (k - n) + k + 7
  | Unwind f _ => S f
  | Done _ => 0
  end.

Lemma attempt_before_settling i t l p n f k :
  coherent transport clock i t l →
  co t = Run p n f →
  settled transport i k →
  n ≤ k.
Proof.
  unfold coherent. intros Hco Ht [_ Hk]. rewrite Ht in Hco.
  destruct Hco as [Hthr _].
  destruct (decide (n ≤ k)) as [|Hlt]; [done|].
  rewrite Hthr in Hk by lia. done.
Qed.

Lemma resume_left i t l k v c v' evs :
  coherent transport clock i t l →
  settled transport i k →
  resume transport clock i t v = Some (c, v', evs) →
  resumptions_left k {| args := args t; co := c |} < resumptions_left k t.
Proof.
  intros Hco Hk Hr. unfold resumptions_left. simpl.
  destruct (co t) as [p n f|f r|o] eqn:Ht.
  - pose proof (attempt_before_settling i t l p n f k Hco Ht Hk) as Hn.
    unfold coherent in Hco. rewrite Ht in Hco. destruct Hco as [_ Hp].
    destruct t as [a0 c0]. simpl in Ht. subst c0.
    destruct p.
    + injection Hr as <- _ _. lia.
    + unfold resume in Hr. simpl in Hr. destruct v; [done|].
      injection Hr as <- _ _. lia.
    + injection Hr as <- _ _. lia.
    + destruct Hp as [-> _]. destruct Hk as [Hbefore Hk].
      destruct (throttled (transport i n)) eqn:Hthr.
      * rewrite resume_throttled in Hr by done. injection Hr as <- _ _.
        assert (n ≠ k) by congruence. lia.
      * rewrite resume_settled in Hr by done. injection Hr as <- _ _.
        destruct (decide (n < k)) as [Hlt|]; [|lia].
        rewrite Hbefore in Hthr by done. done.
    + injection Hr as <- _ _. lia.
  - unfold resume in Hr. rewrite Ht in Hr.
    destruct f; injection Hr as <- _ _; lia.
  - unfold resume in Hr. by rewrite Ht in Hr.
Qed.

Lemma resume_possible i t l k v :
  coherent transport clock i t l →
  settled transport i k →
  k < v + held t →
  outcome t = None →
  is_Some (resume transport clock i t v).
Proof.
  intros Hco Hk Hv Hout. unfold outcome in Hout.
  destruct (co t) as [p n f|f r|o] eqn:Ht; [| |done].
  - pose proof (attempt_before_settling i t l p n f k Hco Ht Hk) as Hn.
    unfold coherent in Hco. rewrite Ht in Hco. destruct Hco as [_ Hp].
    unfold resume, held in *. rewrite Ht in *.
    destruct p; eauto.
    + destruct Hp as [-> _]. destruct v; [lia|eauto].
    + destruct (transport i n) as [res|e]; [|eauto].
      destruct (on_response i res n f). eauto.
  - unfold resume. rewrite Ht. destruct f; eauto.
Qed.

Lemma sum_list_single {A} (f : A → nat) (l : list A) i x :
  l !! i = Some x →
  (∀ j y, j ≠ i → l !! j = Some y → f y = 0) →
  sum_list (f <$> l) = f x.
Proof.
  revert i. induction l as [|z l IH]; intros [|i]; simpl; try done.
  - intros [= ->] Hz.
    assert (sum_list (f <$> l) = 0) as Hl; [|unfold fmap in Hl; lia].
    apply sum_list_zero. intros j y Hj. by apply (Hz (S j)).
  - intros Hi Hz. rewrite (Hz 0 z) by done.
    apply (IH i Hi). intros j y Hne Hj. apply (Hz (S j)); [lia|done].
Qed.

(** Resumed often enough while the others hold no slot, a task whose
    [k]-th reply settles it finishes, provided [k < n_jobs]; the others
    are left as they were. *)
Lemma finish_alone calls i k m :
  settled transport i k →
  k < n_jobs →
  ∀ s t,
    invariant transport clock n_jobs calls s →
    tasks s !! i = Some t →
    (∀ j t', j ≠ i → tasks s !! j = Some t' → held t' = 0) →
    resumptions_left k t ≤ m →
    invariant transport clock n_jobs calls
      (run transport clock (replicate m i) s)
    ∧ (∀ j, j ≠ i →
         tasks (run transport clock (replicate m i) s) !! j = tasks s !! j)
    ∧ ∃ t' o, tasks (run transport clock (replicate m i) s) !! i = Some t'
              ∧ co t' = Done o.
Proof.
  intros Hk Hcap. induction m as [|m IH]; intros s t Hinv Ht Hothers Hm.
  - simpl. split; [done|]. split; [done|]. exists t.
    unfold resumptions_left in Hm.
    destruct (co t) as [[] n f|f r|o]; try lia. by exists o.
  - change (replicate (S m) i) with (i :: replicate m i). rewrite run_cons.
    destruct (outcome t) as [o|] eqn:Hout.
    + assert (turn transport clock s i = s) as ->.
      { unfold turn, step. rewrite Ht. simpl. unfold resume, outcome in *.
        by destruct (co t). }
      apply (IH s t); try done.
      unfold resumptions_left, outcome in *. destruct (co t); try done. lia.
    + pose proof Hinv as (Hslots & _ & Hco). specialize (Hco i t Ht).
      unfold slots_held in Hslots.
      rewrite (sum_list_single held (tasks s) i t Ht Hothers) in Hslots.
      destruct (resume_possible i t _ k (value s) Hco Hk ltac:(lia) Hout)
        as [[[c v'] evs] Hr].
      assert (step transport clock i s
              = Some {| value := v';
                        tasks := <[i := {| args := args t; co := c |}]> (tasks s);
                        log := log s ++ evs |}) as Hstep.
      { unfold step. rewrite Ht. simpl. by rewrite Hr. }
      unfold turn. rewrite Hstep. simpl.
      destruct (IH _ {| args := args t; co := c |}
                  (step_invariant transport clock n_jobs calls s i _ Hinv Hstep))
        as (Hinv' & Hsame & Hdone).
      * simpl. apply list_lookup_insert_eq. by eapply lookup_lt_Some.
      * simpl. intros j t' Hne. rewrite list_lookup_insert_ne by done.
        by apply Hothers.
      * pose proof (resume_left i t _ k _ _ _ _ Hco Hk Hr). lia.
      * split; [done|]. split; [|done].
        intros j Hne. rewrite Hsame by done. simpl.
        by rewrite list_lookup_insert_ne.
Qed.

Lemma one_at_a_time_S len :
  one_at_a_time n_jobs (S len)
  = one_at_a_time n_jobs len ++ replicate (6 * n_jobs) len.
Proof.
  unfold one_at_a_time. rewrite seq_S, flat_map_app. simpl.
  by rewrite app_nil_r.
Qed.

Lemma one_at_a_time_prefix (calls : list call_args) :
  (∀ i a, calls !! i = Some a → ∃ k, k < n_jobs ∧ settled transport i k) →
  ∀ n, n ≤ length calls →
    let s := run transport clock (one_at_a_time n_jobs n) (start n_jobs calls) in
    (∀ j t, j < n → tasks s !! j = Some t → ∃ o, co t = Done o)
    ∧ (∀ j t, n ≤ j → tasks s !! j = Some t → co t = Run AtWait 0 0).
Proof.
  intros Hsettled. induction n as [|n IH]; intros Hn s.
  - split; [intros; lia|]. intros j t _. subst s. simpl.
    rewrite list_lookup_fmap. destruct (calls !! j); [|done].
    by intros [= <-].
  - subst s. rewrite one_at_a_time_S, run_app.
    destruct (IH ltac:(lia)) as [Hdone Hfresh].
    pose proof (reachable_invariant transport clock n_jobs calls
                  (one_at_a_time n_jobs n)) as Hinv.
    set (s := run transport clock (one_at_a_time n_jobs n) (start n_jobs calls))
      in *.
    destruct (lookup_lt_is_Some_2 calls n ltac:(lia)) as [a Ha].
    destruct (reachable_task transport clock n_jobs calls
                (one_at_a_time n_jobs n) n a Ha) as (t & Ht & _).
    fold s in Ht.
    destruct (Hsettled n a Ha) as (k & Hcap & Hk).
    destruct (finish_alone calls n k (6 * n_jobs) Hk Hcap s t Hinv Ht)
      as (_ & Hsame & t' & o & Ht' & Ho).
    { intros j tj Hne Hj. unfold held.
      destruct (decide (j < n)) as [Hlt|Hge].
      - destruct (Hdone j tj Hlt Hj) as [oj ->]. done.
      - by rewrite (Hfresh j tj ltac:(lia) Hj). }
    { unfold resumptions_left. rewrite (Hfresh n t ltac:(lia) Ht). lia. }
    split.
    + intros j tj Hj Htj. destruct (decide (j = n)) as [->|Hne].
      * rewrite Ht' in Htj. injection Htj as <-. eauto.
      * rewrite Hsame in Htj by done. apply (Hdone j tj); [lia|done].
    + intros j tj Hj Htj. rewrite Hsame in Htj by lia.
      apply (Hfresh j tj); [lia|done].
Qed.

(** Lines 64-84 and 141, one call at a time: when every call gets a
    reply that is not a 429 after fewer than [n_jobs] 429s, the batch
    returns if each task is run to its end before the next is started.
    A call then never holds more slots than the semaphore has, and
    nobody else holds one while it retries. *)
Theorem returns_one_call_at_a_time (calls : list call_args) :
  (∀ i a, calls !! i = Some a → ∃ k, k < n_jobs ∧ settled transport i k) →
  ∃ rs,
    gather (run transport clock (one_at_a_time n_jobs (length calls))
              (start n_jobs calls)) = Some rs
    ∧ length rs = length calls.
Proof.
  intros Hsettled.
  destruct (one_at_a_time_prefix calls Hsettled (length calls) ltac:(lia))
    as [Hdone _].
  destruct (reachable_invariant transport clock n_jobs calls
              (one_at_a_time n_jobs (length calls))) as (_ & Hargs & _).
  set (s := run transport clock (one_at_a_time n_jobs (length calls))
              (start n_jobs calls)) in *.
  assert (is_Some (gather s)) as [rs Hrs].
  { apply mapM_is_Some, Forall_lookup. intros j t Ht. simpl.
    destruct (Hdone j t) as [o Ho]; [|done|].
    - apply lookup_lt_Some in Ht.
      by rewrite <- Hargs, length_fmap.
    - unfold outcome. rewrite Ho. eauto. }
  exists rs. split; [done|].
  apply length_mapM in Hrs. by rewrite <- Hargs, length_fmap.
Qed.

(** ** Failures as entries *)

(** Lines 67-84 and 141: what stops a call short of a body is the entry
    of that call in the list [gather] returns.  A transport error is the
    entry as it was raised; a status of 400 or more that settles the
    call is not 429 and gives [ClientResponseError] with that status; a
    body that [response.json()] cannot decode gives the decoder's error.
    The batch returns all the same. *)
Theorem failure_is_the_entry (calls : list call_args) (sched : list nat)
    (rs : list (result chat_result)) (i : nat) (a : call_args) (n : nat) :
  gather (run transport clock sched (start n_jobs calls)) = Some rs →
  calls !! i = Some a →
  settled transport i n →
  match transport i n with
  | Refused e => rs !! i = Some (Raise e)
  | Answered res =>
      if (400 <=? status res)%Z
      then status res ≠ 429%Z
           ∧ rs !! i = Some (Raise (ClientResponseError (status res)))
      else match body res with
           | Raise e => rs !! i = Some (Raise e)
           | Return response =>
               rs !! i = Some (call_openai_chat_finish a (clock i) response)
           end
  end.
Proof.
  intros Hg Ha Hn.
  destruct (gather_outcomes transport clock n_jobs calls sched rs Hg)
    as [_ Hat].
  destruct (Hat i a Ha) as (n' & Hn' & ->).
  rewrite (settled_unique transport i n' n Hn' Hn).
  destruct Hn as [_ Hthr].
  unfold outcome_at, returned, throttled, call_openai_chat_after in *.
  destruct (transport i n) as [res|e]; [|done].
  destruct (400 <=? status res)%Z; simpl in *.
  - split; [|done]. intros H429. rewrite H429 in Hthr. done.
  - by destruct (body res).
Qed.

End More_machine.

(** ** Two runs of one batch *)

Section Two_runs.
Context `{Collaborators}.
Variable transport : nat → nat → reply.
Variable n_jobs : nat.

(** Two records that differ at most in [gpt_called_at]. *)
Definition same_but_for_time (o o' : ChatOutput) : Prop :=
  fields o = fields o'
  ∧ gpt_tokens_used o = gpt_tokens_used o'
  ∧ gpt_raw_input o = gpt_raw_input o'
  ∧ gpt_model o = gpt_model o'
  ∧ out_id o = out_id o'.

(** Two outcomes that are the same but for the time stamped at line 117,
    read as [now] for the one and as [now'] for the other: anything but
    two records is the same outright, and two records carry the same
    time when the content supplied it. *)
Definition agree_but_for_time (now now' : datetime)
    (r r' : result chat_result) : Prop :=
  match r, r' with
  | Return (Envelope o), Return (Envelope o') =>
      same_but_for_time o o'
      ∧ (gpt_called_at o = gpt_called_at o'
         ∨ gpt_called_at o = now ∧ gpt_called_at o' = now')
  | _, _ => r = r'
  end.

Lemma after_agree a now now' r :
  agree_but_for_time now now' (call_openai_chat_after a now r)
    (call_openai_chat_after a now' r).
Proof.
  destruct r as [response|e]; [|done]. simpl.
  unfold call_openai_chat_finish.
  destruct (malformed response) as [[|]|]; simpl; try done.
  destruct (getitem response "usage") as [usage|]; simpl; [|done].
  destruct (getitem response "choices") as [choices|]; simpl; [|done].
  destruct (getitem0 choices) as [choice|]; simpl; [|done].
  destruct (getitem choice "message") as [msg|]; simpl; [|done].
  destruct (getitem msg "content") as [content|]; simpl; [|done].
  destruct (arg_pydantic_model a) as [m|]; [|done].
  destruct (loads content) as [rj|]; simpl; [|done].
  unfold new_ChatOutput. destruct rj as [| | | | | |kw]; try done.
  destruct (_ || _); [done|].
  destruct (pm_validate m _); simpl; [|done].
  unfold datetime_field.
  destruct (dict_get "gpt_called_at" kw) as [v|].
  - destruct (validate_datetime v); simpl; [|done].
    destruct (validate_GPTTokens usage); simpl; [|done].
    destruct (str_field kw "gpt_raw_input" _); simpl; [|done].
    destruct (str_field kw "gpt_model" _); simpl; [|done].
    unfold same_but_for_time. simpl. auto 10.
  - simpl.
    destruct (validate_GPTTokens usage); simpl; [|done].
    destruct (str_field kw "gpt_raw_input" _); simpl; [|done].
    destruct (str_field kw "gpt_model" _); simpl; [|done].
    unfold same_but_for_time. simpl. auto 10.
Qed.

Lemma after_schema_less a now now' r :
  arg_pydantic_model a = None →
  call_openai_chat_after a now r = call_openai_chat_after a now' r.
Proof.
  destruct a as [prompt text m model id]. simpl. by intros ->.
Qed.

(** Lines 117 and 141, two runs of one batch against the same replies,
    each under a schedule and with clock readings of its own: when both
    return, they return as many entries, and the entries at one position
    are the same but for the time stamped on a record, which is each
    run's own reading of the clock unless the content supplied it.  The
    order in which the calls complete shows in these times and in
    nothing else; without a schema no record is made and the two lists
    are the same. *)
Theorem schedule_shows_only_in_timestamps (calls : list call_args)
    (clock clock' : nat → datetime) (sched sched' : list nat)
    (rs rs' : list (result chat_result)) :
  gather (run transport clock sched (start n_jobs calls)) = Some rs →
  gather (run transport clock' sched' (start n_jobs calls)) = Some rs' →
  length rs = length rs'
  ∧ (∀ i r, rs !! i = Some r →
       ∃ r', rs' !! i = Some r'
             ∧ agree_but_for_time (clock i) (clock' i) r r')
  ∧ ((∀ i a, calls !! i = Some a → arg_pydantic_model a = None) →
     rs = rs').
Proof.
  intros [Hlen Hat]%gather_outcomes [Hlen' Hat']%gather_outcomes.
  split; [congruence|]. split.
  - intros i r Hr.
    destruct (calls !! i) as [a|] eqn:Ha.
    + destruct (Hat i a Ha) as (n & Hn & Hi).
      destruct (Hat' i a Ha) as (n' & Hn' & Hi').
      rewrite (settled_unique transport i n' n Hn' Hn) in Hi'.
      rewrite Hr in Hi. injection Hi as ->.
      eexists. split; [done|]. apply after_agree.
    + apply lookup_ge_None in Ha. apply lookup_lt_Some in Hr. lia.
  - intros Hnone. apply list_eq. intros i.
    destruct (calls !! i) as [a|] eqn:Ha.
    + destruct (Hat i a Ha) as (n & Hn & ->).
      destruct (Hat' i a Ha) as (n' & Hn' & ->).
      rewrite (settled_unique transport i n' n Hn' Hn).
      unfold outcome_at. f_equal. apply after_schema_less. by eapply Hnone.
    + apply lookup_ge_None in Ha.
      rewrite !(proj2 (lookup_ge_None _ _)); [done|lia|lia].
Qed.

End Two_runs.

(* ================================================================== *)
(** * Part X. The further properties on concrete batches *)
(* ================================================================== *)

Lemma schema_less_pass_through_witness :
  (∀ content usage,
     call_openai_chat_finish Demo.lone (Demo.clock 0)
       (Demo.completion (JStr "Paris")) = Return (Plain content usage)
     ↔ getitem (Demo.completion (JStr "Paris")) "usage" = Return usage
       ∧ first_content (Demo.completion (JStr "Paris")) = Return content)
  ∧ ∀ o, call_openai_chat_finish Demo.lone (Demo.clock 0)
           (Demo.completion (JStr "Paris")) ≠ Return (Envelope o).
Proof.
  exact (schema_less_pass_through Demo.lone (Demo.clock 0)
           (Demo.completion (JStr "Paris")) eq_refl).
Defined.

Lemma schema_bound_outcomes_witness :
  let a := Demo.call (Some "France") (Some Demo.Answer) in
  let response := Demo.completion (JStr Demo.paris) in
  (∀ c u, call_openai_chat_finish a (Demo.clock 0) response
          ≠ Return (Plain c u))
  ∧ (∀ o, call_openai_chat_finish a (Demo.clock 0) response
          = Return (Envelope o) →
       ∃ s kw,
         JStr Demo.paris = JStr s
         ∧ json_loads s = Some (JDict kw)
         ∧ dict_mem "id" kw = false
         ∧ dict_mem "gpt_tokens_used" kw = false
         ∧ pm_validate Demo.Answer
             (List.filter (fun kv => negb (is_metadata kv.1)) kw)
           = Some (fields o)
         ∧ validate_GPTTokens Demo.usage = Some (gpt_tokens_used o)
         ∧ out_id o = arg_id a)
  ∧ (∀ e, call_openai_chat_finish a (Demo.clock 0) response = Raise e →
       e = TypeError ∨ e = JSONDecodeError ∨ e = ValidationError)
  ∧ (call_openai_chat_finish a (Demo.clock 0) response = Raise JSONDecodeError
     ↔ ∃ s, JStr Demo.paris = JStr s ∧ json_loads s = None).
Proof.
  exact (schema_bound_outcomes (Demo.call (Some "France") (Some Demo.Answer))
           (Demo.clock 0) Demo.Answer (Demo.completion (JStr Demo.paris))
           Demo.usage (JStr Demo.paris) eq_refl eq_refl eq_refl).
Defined.

Lemma stamped_metadata_witness :
  ∃ s kw,
    first_content (Demo.completion (JStr Demo.paris)) = Return (JStr s)
    ∧ json_loads s = Some (JDict kw)
    ∧ match dict_get "gpt_model" kw with
      | None => DEFAULT_MODEL = DEFAULT_MODEL
      | Some g => g = JStr DEFAULT_MODEL
      end
    ∧ match dict_get "gpt_called_at" kw with
      | None => Demo.clock 0 = Demo.clock 0
      | Some v => validate_datetime v = Some (Demo.clock 0)
      end.
Proof.
  exact (stamped_metadata (Demo.call (Some "France") (Some Demo.Answer))
           (Demo.clock 0) (Demo.completion (JStr Demo.paris))
           {| fields := [("text", JStr "Paris")];
              gpt_called_at := Demo.clock 0;
              gpt_tokens_used :=
                {| Demo.prompt_tokens := 12; Demo.completion_tokens := 5;
                   Demo.total_tokens := 17 |};
              gpt_raw_input := "France";
              gpt_model := DEFAULT_MODEL;
              out_id := Some "row-1" |}
           eq_refl).
Defined.

Lemma limiter_units_match_body_witness :
  ∃ messages model,
    dict_get "messages" (request_data Demo.lone) = Some (JList messages)
    ∧ dict_get "model" (request_data Demo.lone) = Some (JStr model)
    ∧ required_tokens Demo.lone = count_tokens messages model.
Proof.
  exact (limiter_units_match_body Demo.answered_at_once Demo.clock 1
           [Demo.lone] [0] 0 Demo.lone (required_tokens Demo.lone) eq_refl
           (or_intror (or_introl eq_refl))).
Defined.

Lemma calls_stay_in_order_witness :
  let l := calls_of 2 (run Demo.replies Demo.clock [2; 2; 2; 2; 1; 1; 2]
                         (start 2 Demo.batch)) in
  occurrences Post l ≤ occurrences Acquire l
  ∧ occurrences Acquire l ≤ occurrences WaitUnits l
  ∧ occurrences WaitUnits l ≤ S (occurrences Post l)
  ∧ occurrences WaitAgain l ≤ occurrences Warn l
  ∧ occurrences Warn l ≤ S (occurrences WaitAgain l)
  ∧ occurrences Warn l ≤ occurrences Post l
  ∧ occurrences Post l ≤ S (occurrences Warn l)
  ∧ occurrences Release l ≤ occurrences Acquire l
  ∧ occurrences Update l ≤ 1
  ∧ occurrences Configure l = 0.
Proof.
  exact (calls_stay_in_order Demo.replies Demo.clock 2 Demo.batch
           [2; 2; 2; 2; 1; 1; 2] 2
           (call_of "Capital of" None DEFAULT_MODEL
              {| row_text := None; row_id := None |})
           eq_refl).
Defined.

Lemma calls_when_finished_witness :
  let l := calls_of 2 (run Demo.replies Demo.clock Demo.schedule
                         (start 2 Demo.batch)) in
  ∃ n, settled Demo.replies 2 n
       ∧ occurrences Post l = S n
       ∧ occurrences WaitUnits l = S n
       ∧ occurrences Acquire l = S n
       ∧ occurrences Release l = S n
       ∧ occurrences Warn l = n
       ∧ occurrences WaitAgain l = n
       ∧ occurrences Update l = (if succeeded (Demo.replies 2 n) then 1 else 0)
       ∧ (throttled (Demo.replies 2 0) = false → occurrences Post l = 1).
Proof.
  exact (calls_when_finished Demo.replies Demo.clock 2 Demo.batch Demo.schedule
           Demo.results 2
           (call_of "Capital of" None DEFAULT_MODEL
              {| row_text := None; row_id := None |})
           eq_refl eq_refl).
Defined.

Lemma slots_returned_when_batch_returns_witness :
  let s := run Demo.replies Demo.clock Demo.schedule (start 2 Demo.batch) in
  value s = 2
  ∧ length (acquired (log s)) = length (released (log s))
  ∧ ∀ more, run Demo.replies Demo.clock (Demo.schedule ++ more)
              (start 2 Demo.batch) = s.
Proof.
  exact (slots_returned_when_batch_returns Demo.replies Demo.clock 2 Demo.batch
           Demo.schedule Demo.results eq_refl).
Defined.

Lemma second_row_settled : settled Demo.replies 1 0.
Proof. split; [lia|done]. Qed.

Lemma failure_is_the_entry_witness :
  500%Z ≠ 429%Z
  ∧ Demo.results !! 1 = Some (Raise (ClientResponseError 500)).
Proof.
  exact (failure_is_the_entry Demo.replies Demo.clock 2 Demo.batch Demo.schedule
           Demo.results 1
           (call_of "Capital of" None DEFAULT_MODEL
              {| row_text := Some "Spain"; row_id := Some "b" |})
           0 eq_refl eq_refl second_row_settled).
Defined.

Lemma third_row_throttled m : m < 1 → throttled (Demo.replies 2 m) = true.
Proof. destruct m; [done|lia]. Qed.

Lemma never_returns_when_throttled_to_capacity_witness :
  gather (run Demo.replies Demo.clock Demo.schedule (start 1 Demo.batch)) = None.
Proof.
  exact (never_returns_when_throttled_to_capacity Demo.replies Demo.clock 1
           Demo.batch Demo.schedule 2
           (call_of "Capital of" None DEFAULT_MODEL
              {| row_text := None; row_id := None |})
           eq_refl third_row_throttled).
Defined.

Lemma rows_settle_in_time i a :
  Demo.batch !! i = Some a → ∃ k, k < 2 ∧ settled Demo.replies i k.
Proof.
  intros Ha.
  destruct i as [|[|[|i]]]; [exists 0|exists 0|exists 1|done];
    (split; [lia|]); (split; [|done]).
  - lia.
  - lia.
  - intros m Hm. by destruct m; [|lia].
Qed.

Lemma returns_one_call_at_a_time_witness :
  ∃ rs,
    gather (run Demo.replies Demo.clock (one_at_a_time 2 (length Demo.batch))
              (start 2 Demo.batch)) = Some rs
    ∧ length rs = length Demo.batch.
Proof. exact (returns_one_call_at_a_time Demo.replies Demo.clock 2 Demo.batch
                rows_settle_in_time).
Defined.

Lemma schedule_shows_only_in_timestamps_witness :
  let rs := [Return (Envelope (Demo.answer_at 1700000000));
             Return (Envelope (Demo.answer_at 1700000001))] in
  let rs' := [Return (Envelope (Demo.answer_at 1700000001));
              Return (Envelope (Demo.answer_at 1700000000))] in
  length rs = length rs'
  ∧ (∀ i r, rs !! i = Some r →
       ∃ r', rs' !! i = Some r'
             ∧ agree_but_for_time (Demo.clock i) (Demo.clock_backwards i) r r')
  ∧ ((∀ i a, Demo.structured !! i = Some a → arg_pydantic_model a = None) →
     rs = rs').
Proof.
  exact (schedule_shows_only_in_timestamps Demo.answered_in_json 2
           Demo.structured Demo.clock Demo.clock_backwards
           Demo.first_then_second Demo.second_then_first _ _ eq_refl eq_refl).
Defined.

